(** * Serial resource coordination and baseline sync of the MicroPython workbench

    Shallow embedding of the parts of the extension that arbitrate access to
    the single serial channel:
    - [OpQueue]: the promise chain [opQueue] of [withAutoSuspend]
      (src/src/core/extension.ts) as a step relation over the queued bodies;
    - [Sess]: the terminal/session bookkeeping of
      src/src/board/mpremoteCommands.ts in a state-and-error monad, with the
      suspend/restore pair and [withAutoSuspend]'s try/finally;
    - [Sync]: the directory pass and manifest handling of
      [syncCommands.syncBaseline] (src/src/commands/syncCommands.ts);
    - [RunLock]: the promise lock [_lock] of [MpRemoteManagerClass.run]
      (src/src/board/MpRemoteManager.ts).
    [Sess] also embeds the interrupt/reset commands ([robustInterrupt],
    [robustInterruptAndReset], [stop], [softReset], [serialSendCtrlC]) and
    [normalizeReplBehavior]; [SyncPaths] and [SyncFromBoard] embed the path
    helpers and [syncCommands.syncBaselineFromBoard].
    [Scenarios] holds concrete sessions; the [...Facts] and [OpQueueDrain]
    modules prove the invariants, the [...Claims] modules state the
    properties of the specification about these definitions, and the
    [...Extras] modules prove further properties of the same code. *)

From Stdlib Require Import Lia Ascii String Sorting.Sorted.
From stdpp Require Import base list strings.

Open Scope nat_scope.

(* ------------------------------------------------------------------ *)
(** ** The coordinator queue of [withAutoSuspend] *)

Module OpQueue.

(** Where the body queued by one [withAutoSuspend] call is.  The body
    [async () => { snapshot = await suspend...; try { await ensureIdle();
    return await fn(); } finally { restore... } }] goes through
    [Suspending] (suspend and ensureIdle), [Working] (inside [fn]) and
    [Restoring] (the finally block); its promise settles at [Finished]. *)
Inductive phase := Waiting | Suspending | Working | Restoring | Finished.

Definition phase_eqb (a b : phase) : bool :=
  match a, b with
  | Waiting, Waiting | Suspending, Suspending | Working, Working
  | Restoring, Restoring | Finished, Finished => true
  | _, _ => false
  end.

(** One call: the promise its body was chained after ([None] is
    [Promise.resolve()]), and its phase. *)
Record op := mkOp { op_pred : option nat; op_phase : phase }.

(** [opQueue] holds the promise of the last chained body ([None] for
    [Promise.resolve()]); [skipIdleOnce] is the closure flag of [activate]. *)
Record qstate := mkQ { ops : list op; opQueue : option nat; skipIdleOnce : bool }.

Definition init : qstate := mkQ [] None false.

Inductive event :=
  (** [withAutoSuspend(fn, { preempt })] with the setting
      [microPythonWorkBench.serialAutoSuspend] read as [enabled] *)
  | Call (enabled preempt : bool)
  | SetSkipIdleOnce
  (** the [.then] continuation of call [i] runs *)
  | Start (i : nat)
  (** suspend and ensureIdle are done, [fn()] is invoked *)
  | EnterWork (i : nat)
  (** [fn]'s promise settled, the finally block runs *)
  | LeaveWork (i : nat)
  (** the body's promise settles *)
  | Finish (i : nat).

(** A promise of the chain has settled. *)
Definition settled (s : qstate) (p : option nat) : bool :=
  match p with
  | None => true
  | Some k =>
      match ops s !! k with
      | Some o => phase_eqb (op_phase o) Finished
      | None => false
      end
  end.

Definition set_phase (s : qstate) (i : nat) (o : op) (ph : phase) : qstate :=
  mkQ (<[i := mkOp (op_pred o) ph]> (ops s)) (opQueue s) (skipIdleOnce s).

Definition advance (s : qstate) (i : nat) (from to : phase) : option qstate :=
  match ops s !! i with
  | Some o => if phase_eqb (op_phase o) from then Some (set_phase s i o to) else None
  | None => None
  end.

Definition step (s : qstate) (e : event) : option qstate :=
  match e with
  | Call enabled preempt =>
      (* if (opts.preempt !== false) opQueue = Promise.resolve(); *)
      let q := if preempt then None else opQueue s in
      if negb enabled || skipIdleOnce s then
        (* skipIdleOnce = false; try { return await fn(); } finally { } :
           fn is invoked at once, outside the chain *)
        Some (mkQ (ops s ++ [mkOp None Working]) q false)
      else
        (* opQueue = opQueue.catch(() => {}).then(async () => ...) *)
        Some (mkQ (ops s ++ [mkOp q Waiting]) (Some (length (ops s))) (skipIdleOnce s))
  | SetSkipIdleOnce => Some (mkQ (ops s) (opQueue s) true)
  | Start i =>
      match ops s !! i with
      | Some o =>
          if phase_eqb (op_phase o) Waiting && settled s (op_pred o)
          then Some (set_phase s i o Suspending) else None
      | None => None
      end
  | EnterWork i => advance s i Suspending Working
  | LeaveWork i => advance s i Working Restoring
  | Finish i => advance s i Restoring Finished
  end.

Fixpoint run (s : qstate) (evs : list event) : option qstate :=
  match evs with
  | [] => Some s
  | e :: evs' => match step s e with Some s' => run s' evs' | None => None end
  end.

(** The instrumented counter: work closures started and not yet finished. *)
Definition in_flight (s : qstate) : nat :=
  length (filter (fun o => phase_eqb (op_phase o) Working = true) (ops s)).

Definition phase_of (s : qstate) (i : nat) : option phase :=
  option_map op_phase (ops s !! i).

(** Events a run of callers issues when every caller passes
    [preempt: false] with auto-suspend enabled and nobody sets
    [skipIdleOnce]. *)
Definition serial_event (e : event) : bool :=
  match e with
  | Call enabled preempt => enabled && negb preempt
  | SetSkipIdleOnce => false
  | _ => true
  end.

Definition auto_suspend_event (e : event) : bool :=
  match e with
  | Call enabled _ => enabled
  | SetSkipIdleOnce => false
  | _ => true
  end.

(** Bodies after a non-waiting one are preceded only by finished bodies. *)
Definition ordered (l : list op) : Prop :=
  forall i j oi oj, i < j -> l !! i = Some oi -> l !! j = Some oj ->
    op_phase oj <> Waiting -> op_phase oi = Finished.

Definition chain_pred (i : nat) : option nat :=
  match i with 0 => None | S j => Some j end.

(** Shape of the queue when every call chains after the previous one. *)
Definition chain_inv (s : qstate) : Prop :=
  opQueue s = chain_pred (length (ops s)) /\
  skipIdleOnce s = false /\
  (forall i o, ops s !! i = Some o -> op_pred o = chain_pred i) /\
  ordered (ops s).

(** Every chained body waits only on a body enqueued before it. *)
Definition back_inv (s : qstate) : Prop :=
  (forall k, opQueue s = Some k -> k < length (ops s)) /\
  (forall i o k, ops s !! i = Some o -> op_pred o = Some k -> k < i).

(** The remaining events that take a body from [ph] to [Finished]. *)
Definition finish_events (ph : phase) (i : nat) : list event :=
  match ph with
  | Waiting => [Start i; EnterWork i; LeaveWork i; Finish i]
  | Suspending => [EnterWork i; LeaveWork i; Finish i]
  | Working => [LeaveWork i; Finish i]
  | Restoring => [Finish i]
  | Finished => []
  end.

End OpQueue.

(* ------------------------------------------------------------------ *)
(** ** Terminal sessions of src/src/board/mpremoteCommands.ts *)

Module Sess.

Local Open Scope string_scope.

(** Settlement of a promise: resolved with a value or rejected with an
    error message. *)
Inductive outcome (A : Type) := Resolved (v : A) | Rejected (e : string).
Arguments Resolved {A} v.
Arguments Rejected {A} e.

Inductive term_kind := RunT | ReplT.

(** Effects on the host, in the order they happen. *)
Inductive hostev :=
  | Send (t : term_kind) (text : string)   (** [terminal.sendText(text)] *)
  | Create (t : term_kind)                 (** [vscode.window.createTerminal] *)
  | Dispose (t : term_kind)                (** [terminal.dispose()] *)
  | Device (call : string).                (** an [mp.*] call on the board *)

Record LastRunCommand := mkLastRun { device : string; filePath : string; cmd : string }.

(** The module state of mpremoteCommands.ts and what it reads from the host.
    [runTerminal] and [replTerminal] are [Some alive] when the module
    variable holds a terminal, [alive] telling whether that terminal is still
    in [vscode.window.terminals] (the user may close it at any time);
    [connect] is the setting [microPythonWorkBench.connect]; [pythonPath] is
    what [MpRemoteManager.detectPythonPath()] finds; [device_results] is what
    the next device calls report (an empty list: they succeed). *)
Record sess := mkSess {
  runTerminal : option bool;
  replTerminal : option bool;
  userClosedRepl : bool;
  lastRunCommand : option LastRunCommand;
  connect : string;
  pythonPath : option string;
  device_results : list (outcome unit);
  log : list hostev }.

Definition set_run (s : sess) (t : option bool) : sess :=
  mkSess t (replTerminal s) (userClosedRepl s) (lastRunCommand s) (connect s)
    (pythonPath s) (device_results s) (log s).
Definition set_repl (s : sess) (t : option bool) : sess :=
  mkSess (runTerminal s) t (userClosedRepl s) (lastRunCommand s) (connect s)
    (pythonPath s) (device_results s) (log s).
Definition set_user_closed (s : sess) (b : bool) : sess :=
  mkSess (runTerminal s) (replTerminal s) b (lastRunCommand s) (connect s)
    (pythonPath s) (device_results s) (log s).
Definition set_last_run (s : sess) (l : option LastRunCommand) : sess :=
  mkSess (runTerminal s) (replTerminal s) (userClosedRepl s) l (connect s)
    (pythonPath s) (device_results s) (log s).
Definition set_results (s : sess) (r : list (outcome unit)) : sess :=
  mkSess (runTerminal s) (replTerminal s) (userClosedRepl s) (lastRunCommand s)
    (connect s) (pythonPath s) r (log s).
Definition add_log (s : sess) (ev : hostev) : sess :=
  mkSess (runTerminal s) (replTerminal s) (userClosedRepl s) (lastRunCommand s)
    (connect s) (pythonPath s) (device_results s) (log s ++ [ev])%list.

(** The async functions of the module: state passing with rejection. *)
Definition M (A : Type) : Type := sess -> outcome A * sess.

Definition mret' {A} (a : A) : M A := fun s => (Resolved a, s).
Definition bindM {A B} (m : M A) (k : A -> M B) : M B := fun s =>
  match m s with
  | (Resolved a, s1) => k a s1
  | (Rejected e, s1) => (Rejected e, s1)
  end.

(** [const x = await m; k] and [await m; k] *)
Local Notation "'let*' x ':=' m 'in' k" := (bindM m (fun x => k))
  (at level 200, x name, m at level 100, k at level 200).
Local Notation "m ;;; k" := (bindM m (fun _ => k))
  (at level 100, k at level 200, right associativity).

Definition throw {A} (e : string) : M A := fun s => (Rejected e, s).
Definition gets {A} (f : sess -> A) : M A := fun s => (Resolved (f s), s).
Definition modify (f : sess -> sess) : M unit := fun s => (Resolved tt, f s).

(** [try { m } catch (e) { h(e) }] *)
Definition try_catch {A} (m : M A) (h : string -> M A) : M A := fun s =>
  match m s with
  | (Rejected e, s1) => h e s1
  | r => r
  end.

(** [try { m } finally { fin }]: a throwing [fin] replaces [m]'s outcome. *)
Definition try_finally {A} (m : M A) (fin : M unit) : M A := fun s =>
  match m s with
  | (r, s1) =>
      match fin s1 with
      | (Rejected e, s2) => (Rejected e, s2)
      | (Resolved _, s2) => (r, s2)
      end
  end.

Definition send (t : term_kind) (text : string) : M unit := modify (fun s => add_log s (Send t text)).

Definition ctrl_b : string := String "002"%char EmptyString.
Definition ctrl_c : string := String "003"%char EmptyString.
Definition ctrl_d : string := String "004"%char EmptyString.
Definition ctrl_x : string := String "024"%char EmptyString.
Definition dq : string := String "034"%char EmptyString.

(** An [mp.*] call: it reports the next recorded result. *)
Definition device_call (call : string) : M unit := fun s =>
  let s1 := add_log s (Device call) in
  match device_results s with
  | [] => (Resolved tt, s1)
  | r :: rest => (r, set_results s1 rest)
  end.

Fixpoint strip_prefix (p str : string) : option string :=
  match p, str with
  | EmptyString, _ => Some str
  | String a p', String b str' => if Ascii.eqb a b then strip_prefix p' str' else None
  | _, _ => None
  end.

(** [str.replace(/^p/, "")] *)
Definition replace_prefix (p str : string) : string :=
  match strip_prefix p str with Some r => r | None => str end.

(** [connect.replace(/^serial:\/\//, "").replace(/^serial:\//, "")] *)
Definition device_of (c : string) : string :=
  replace_prefix "serial:/" (replace_prefix "serial://" c).

(** [!connect || connect === "auto"] is false *)
Definition connect_selected (c : string) : bool :=
  negb (String.eqb c "" || String.eqb c "auto").

Fixpoint has_char (c : ascii) (str : string) : bool :=
  match str with
  | EmptyString => false
  | String d str' => Ascii.eqb c d || has_char c str'
  end.

(** [a.replace(/"/g, '\\"')] *)
Fixpoint escape_dq (str : string) : string :=
  match str with
  | EmptyString => EmptyString
  | String c str' =>
      if Ascii.eqb c "034"%char then String "092"%char (String c (escape_dq str'))
      else String c (escape_dq str')
  end.

Definition quote_arg (a : string) : string :=
  if has_char " "%char a then (dq ++ escape_dq a ++ dq)%string else a.

Fixpoint join_space (l : list string) : string :=
  match l with
  | [] => ""
  | [x] => x
  | x :: r => (x ++ " " ++ join_space r)%string
  end.

(** [buildShellCommand] *)
Definition buildShellCommand (args : list string) : M string :=
  let* py_path := gets pythonPath in
  let joined := join_space (map quote_arg args) in
  match py_path with
  | None => throw "Python interpreter not found"
  | Some py => mret' (dq ++ py ++ dq ++ " -m mpremote " ++ joined)%string
  end.

(** [isRunTerminalOpen]: drops a terminal the user closed. *)
Definition isRunTerminalOpen : M bool := fun s =>
  match runTerminal s with
  | None => (Resolved false, s)
  | Some false => (Resolved false, set_run s None)
  | Some true => (Resolved true, s)
  end.

(** [isReplOpen] (the UI context key it sets is not modelled). *)
Definition isReplOpen : M bool :=
  gets (fun s => match replTerminal s with Some true => true | _ => false end).

Definition closeRunTerminal : M unit := fun s =>
  match runTerminal s with
  | None => (Resolved tt, s)
  | Some _ => (Resolved tt, set_run (add_log (add_log s (Send RunT ctrl_c)) (Dispose RunT)) None)
  end.

Definition getRunTerminal : M unit := fun s =>
  match runTerminal s with
  | Some true => (Resolved tt, s)
  | _ => (Resolved tt, set_run (add_log (set_run s None) (Create RunT)) (Some true))
  end.

Definition disconnectReplTerminal : M unit := fun s =>
  match replTerminal s with
  | Some _ => (Resolved tt, add_log s (Send ReplT ctrl_x))
  | None => (Resolved tt, s)
  end.

Definition closeReplTerminal (userInitiated : bool) : M unit := fun s =>
  let s1 := match replTerminal s with
            | Some _ => set_repl (add_log s (Dispose ReplT)) None
            | None => s
            end in
  (Resolved tt, set_user_closed s1 (userInitiated || userClosedRepl s1)).

(** [getReplTerminal]; the Windows code page line and the delayed Ctrl-C /
    Ctrl-B keystrokes sent from timers are not modelled. *)
Definition getReplTerminal : M unit := fun s =>
  match replTerminal s with
  | Some true => (Resolved tt, s)
  | _ =>
      let s0 := set_repl s None in
      if negb (connect_selected (connect s0))
      then (Rejected "Select a specific serial port first (not 'auto')", s0)
      else
        match buildShellCommand ["connect"; device_of (connect s0)] s0 with
        | (Rejected e, s1) => (Rejected e, s1)
        | (Resolved c, s1) =>
            let s2 := set_repl (add_log s1 (Create ReplT)) (Some true) in
            (Resolved tt, set_user_closed (add_log s2 (Send ReplT c)) false)
        end
  end.

Definition repl_present : M bool :=
  gets (fun s => match replTerminal s with Some _ => true | None => false end).

Definition restartReplInExistingTerminal : M unit :=
  try_catch
    (let* c := gets connect in
     if negb (connect_selected c) then mret' tt else
     let dev := device_of c in
     let* present := repl_present in
     let* opened := isReplOpen in
     if negb present || negb opened then getReplTerminal
     else let* c' := buildShellCommand ["connect"; dev] in send ReplT c')
    (fun _ => mret' tt).

Definition rememberLastRunCommand (dev fp c : string) : M unit :=
  modify (fun s => set_last_run s (Some (mkLastRun dev fp c))).

Definition rerunLastRunCommand (info : LastRunCommand) : M unit :=
  let* opened := isReplOpen in
  (if opened then closeReplTerminal false else mret' tt);;;
  let* reuse := isRunTerminalOpen in
  getRunTerminal;;;
  (if reuse then send RunT ctrl_c else mret' tt);;;
  send RunT (cmd info).

Record AutoSuspendSnapshot := mkSnap {
  runWasOpen : bool; replWasOpen : bool; snapLastRun : option LastRunCommand }.

Definition suspendSerialSessionsForAutoSync : M AutoSuspendSnapshot :=
  let* runWas := isRunTerminalOpen in
  let* replWas := isReplOpen in
  let* last := gets lastRunCommand in
  let snapshot := mkSnap runWas replWas (if runWas then last else None) in
  (if runWas then closeRunTerminal else mret' tt);;;
  (if replWas then disconnectReplTerminal;;; closeReplTerminal false else mret' tt);;;
  mret' snapshot.

Inductive ReplRestoreBehavior := runChanged | executeBootMain | openReplEmpty | none.

Definition behavior_eqb (a b : ReplRestoreBehavior) : bool :=
  match a, b with
  | runChanged, runChanged | executeBootMain, executeBootMain
  | openReplEmpty, openReplEmpty | none, none => true
  | _, _ => false
  end.

Definition restoreSerialSessionsFromSnapshot (snapshot : AutoSuspendSnapshot)
    (resumeReplCommand : option string) (replBehavior : ReplRestoreBehavior) : M unit :=
  match runWasOpen snapshot, snapLastRun snapshot with
  | true, Some info => rerunLastRunCommand info
  | _, _ =>
      if replWasOpen snapshot then
        let* userClosed := gets userClosedRepl in
        if userClosed then mret' tt else
        if behavior_eqb replBehavior none then mret' tt else
        restartReplInExistingTerminal;;;
        let* t1 := repl_present in
        (if behavior_eqb replBehavior executeBootMain && t1
         then try_catch (send ReplT ctrl_d) (fun _ => mret' tt) else mret' tt);;;
        let* t2 := repl_present in
        match resumeReplCommand with
        | Some rc =>
            if behavior_eqb replBehavior runChanged && negb (String.eqb rc "") && t2
            then try_catch (send ReplT rc) (fun _ => mret' tt) else mret' tt
        | None => mret' tt
        end
        (* openReplEmpty only shows the terminal *)
      else mret' tt
  end.


(** [runActiveFile] for an active editor on [fp] whose save succeeds. *)
Definition runActiveFile (fp : string) : M unit :=
  let* c := gets connect in
  if negb (connect_selected c) then mret' tt else
  let dev := device_of c in
  let* opened := isReplOpen in
  (if opened then closeReplTerminal false else mret' tt);;;
  let* reuse := gets (fun s => match runTerminal s with Some true => true | _ => false end) in
  getRunTerminal;;;
  (if reuse then send RunT ctrl_c else mret' tt);;;
  let* c' := buildShellCommand ["connect"; dev; "run"; fp] in
  rememberLastRunCommand dev fp c';;;
  send RunT c'.

Fixpoint ascii_lower_string (str : string) : string :=
  match str with
  | EmptyString => EmptyString
  | String c str' =>
      let n := nat_of_ascii c in
      String (if (65 <=? n)%nat && (n <=? 90)%nat then ascii_of_nat (n + 32)%nat else c)
        (ascii_lower_string str')
  end.

(** [str.includes(sub)] *)
Definition includes (str sub : string) : bool :=
  match String.index 0 sub str with Some _ => true | None => false end.

(** The messages [openReplTerminal] treats as transient. *)
Definition transient_message (e : string) : bool :=
  let msg := ascii_lower_string e in
  includes msg "device not configured" || includes msg "serialexception" ||
  includes msg "serial port not found" || includes msg "read failed".

(** The [for (attempt = 1; attempt <= 2; attempt++)] loop of
    [strictConnectHandshake]: reset and list the root, back off and retry
    after a failure, [break] after the second one. *)
Fixpoint handshake_attempts (attempts : list nat) : M unit :=
  match attempts with
  | [] => mret' tt
  | attempt :: rest => fun s =>
      match (device_call "reset";;; device_call "ls /") s with
      | (Resolved _, s1) => (Resolved tt, s1)
      | (Rejected _, s1) =>
          if Nat.eqb attempt 2%nat then (Resolved tt, s1) else handshake_attempts rest s1
      end
  end.

Definition strictConnectHandshake (interrupt : bool) : M unit :=
  if negb interrupt then mret' tt else handshake_attempts [1; 2]%nat.

(** The [for (attempt = 1; attempt <= 2; attempt++)] loop of
    [openReplTerminal], with [lastError]. *)
Fixpoint open_repl_attempts (interrupt strict : bool) (attempts : list nat)
    (lastError : option string) : M unit :=
  match attempts with
  | [] => match lastError with Some e => throw e | None => mret' tt end
  | attempt :: rest => fun s =>
      let body :=
        (if strict then strictConnectHandshake interrupt
         else if interrupt then try_catch (device_call "reset") (fun _ => mret' tt)
         else mret' tt);;;
        getReplTerminal in
      match body s with
      | (Resolved _, s1) => (Resolved tt, s1)
      | (Rejected e, s1) =>
          if transient_message e then
            if Nat.eqb attempt 1%nat then open_repl_attempts interrupt strict rest (Some e) s1
            else (Rejected e, s1)
          else (Rejected e, s1)
      end
  end.

(** [openReplTerminal] with the settings [interruptOnConnect] and
    [strictConnect]. *)
Definition openReplTerminal (interrupt strict : bool) : M unit :=
  open_repl_attempts interrupt strict [1; 2]%nat None.

(** [ensureIdle]: [try { await mp.ls("/"); } catch {}] and a delay. *)
Definition ensureIdle : M unit := try_catch (device_call "ls /") (fun _ => mret' tt).

(** The body of [withAutoSuspend] for a given restore step: the bypass when
    auto-suspend is disabled or [skipIdleOnce] is set, otherwise the queued
    [async () => { ... }] (queueing itself is [OpQueue]'s business). *)
Definition withAutoSuspend_with {A} (enabled skipIdleOnce : bool)
    (restore : AutoSuspendSnapshot -> M unit) (fn : M A) : M A :=
  if negb enabled || skipIdleOnce then try_finally fn (mret' tt)
  else
    let* snapshot := suspendSerialSessionsForAutoSync in
    try_finally (ensureIdle;;; fn)
      (try_catch (restore snapshot) (fun _ => mret' tt)).

(** [withAutoSuspend(fn, { resumeReplCommand, replBehavior })] *)
Definition withAutoSuspend {A} (enabled skipIdleOnce : bool) (resumeReplCommand : option string)
    (replBehavior : ReplRestoreBehavior) (fn : M A) : M A :=
  withAutoSuspend_with enabled skipIdleOnce
    (fun snapshot => restoreSerialSessionsFromSnapshot snapshot resumeReplCommand replBehavior) fn.

(** The port of [robustInterrupt] and [robustInterruptAndReset]: the [port]
    argument when it is a non-empty string ([if (port)]), else the
    configured one, refused when it is empty or ["auto"]. *)
Definition port_given (port : option string) : option string :=
  match port with
  | Some p => if String.eqb p "" then None else Some p
  | None => None
  end.

Definition robust_port (port : option string) : M string :=
  match port_given port with
  | Some p => mret' p
  | None =>
      let* c := gets connect in
      if negb (connect_selected c)
      then throw "Select a specific serial port first (not 'auto')."
      else mret' (device_of c)
  end.

(** Host commands of the interrupt and reset paths, each settling with the
    next recorded device result.  [exec_sh cmd] is the promise around
    [exec(cmd, cb)]; [mpremote_run args] is [MpRemoteManager.run(args)]
    (its [retryOnFailure] option is not read by [run]); [health_check] is
    [mp.healthCheck(devicePort)].  A rejection carries the text
    [`${error}`] renders. *)
Definition exec_sh (cmd : string) : M unit := device_call cmd.
Definition mpremote_run (args : list string) : M unit := device_call (join_space ("mpremote" :: args)).
Definition health_check (port : string) : M unit := device_call ("healthCheck " ++ port).

(** [`echo -e '\\x03\\x03' > ${devicePort}`] and [`echo -e '\\x04' > ${devicePort}`] *)
Definition echo_interrupt_cmd (port : string) : string := "echo -e '\x03\x03' > " ++ port.
Definition echo_reset_cmd (port : string) : string := "echo -e '\x04' > " ++ port.
Definition interrupt_args (port : string) : list string :=
  ["connect"; port; "exec"; "--no-follow"; "import sys; sys.stdin.write(b'\x03\x03')"].

(** The REPL path: [const term = await getReplTerminal()], the keystrokes,
    then [return]; [true] when it returned, [false] when it threw and the
    caller falls back. *)
Definition via_repl (keys : list string) : M bool :=
  try_catch
    (getReplTerminal;;; fold_right (fun k m => send ReplT k;;; m) (mret' true) keys)
    (fun _ => mret' false).

(** [robustInterrupt(port?)] *)
Definition robustInterrupt (port : option string) : M unit :=
  let* opened := isReplOpen in
  let* returned := (if opened then via_repl [ctrl_c; ctrl_c] else mret' false) in
  if returned then mret' tt else
  let* devicePort := robust_port port in
  try_catch (health_check devicePort) (fun _ => mret' tt);;;
  try_catch (exec_sh (echo_interrupt_cmd devicePort))
    (fun error =>
       try_catch (mpremote_run (interrupt_args devicePort))
         (fun error2 =>
            throw ("Failed to interrupt device on " ++ devicePort ++ ": echo error: " ++
                   error ++ ", mpremote error: " ++ error2))).

(** [robustInterruptAndReset(port?)]: a failed interrupt does not stop the
    reset step. *)
Definition robustInterruptAndReset (port : option string) : M unit :=
  let* opened := isReplOpen in
  let* returned := (if opened then via_repl [ctrl_c; ctrl_c; ctrl_d] else mret' false) in
  if returned then mret' tt else
  let* devicePort := robust_port port in
  try_catch (health_check devicePort) (fun _ => mret' tt);;;
  try_catch (exec_sh (echo_interrupt_cmd devicePort))
    (fun _ => try_catch (mpremote_run (interrupt_args devicePort)) (fun _ => mret' tt));;;
  try_catch (exec_sh (echo_reset_cmd devicePort))
    (fun error =>
       try_catch (mpremote_run ["connect"; devicePort; "reset"])
         (fun error2 =>
            throw ("Failed to reset device on " ++ devicePort ++ ": echo error: " ++
                   error ++ ", mpremote error: " ++ error2))).

Definition stop : M unit := try_catch (robustInterruptAndReset None) (fun _ => mret' tt).

(** [softReset]: the REPL path, else [mpremote connect <device> reset]
    through [exec], whose failure is only shown. *)
Definition softReset : M unit :=
  let* opened := isReplOpen in
  let* returned := (if opened then via_repl [ctrl_c; ctrl_b; ctrl_d] else mret' false) in
  if returned then mret' tt else
  let* c := gets connect in
  let* cmd := buildShellCommand ["connect"; device_of c; "reset"] in
  try_catch (exec_sh cmd) (fun _ => mret' tt).

(** [normalizeReplBehavior(raw)] of src/src/core/extension.ts ([None] is
    [undefined] or [null]). *)
Definition normalizeReplBehavior (raw : option string) : ReplRestoreBehavior :=
  match raw with
  | None => none
  | Some r =>
      if String.eqb r "runChanged" then runChanged
      else if String.eqb r "executeBootMain" then executeBootMain
      else if String.eqb r "openReplEmpty" then openReplEmpty
      else if String.eqb r "none" then none
      else if String.eqb r "resumeCommand" then runChanged
      else if String.eqb r "softReset" then executeBootMain
      else none
  end.

(** The string literal type of the four behaviors. *)
Definition behavior_name (b : ReplRestoreBehavior) : string :=
  match b with
  | runChanged => "runChanged"
  | executeBootMain => "executeBootMain"
  | openReplEmpty => "openReplEmpty"
  | none => "none"
  end.

(** The command line [MpRemoteManager.run] builds: arguments with a space
    are wrapped in double quotes after [a.replace(/"/g, '\"')], whose
    replacement string is a lone double quote. *)
Fixpoint run_replace_dq (str : string) : string :=
  match str with
  | EmptyString => EmptyString
  | String c str' =>
      if Ascii.eqb c "034"%char then (dq ++ run_replace_dq str')%string
      else String c (run_replace_dq str')
  end.

Definition run_quote_arg (a : string) : string :=
  if has_char " "%char a then (dq ++ run_replace_dq a ++ dq)%string else a.

Definition run_command_line (pythonPath : string) (args : list string) : string :=
  dq ++ pythonPath ++ dq ++ " -m mpremote " ++ join_space (map run_quote_arg args).

(** Observations used to state properties of the session functions: the
    terminals that are alive, and the host effects that reset the board or
    bring up a REPL. *)
Definition run_alive (s : sess) : bool :=
  match runTerminal s with Some true => true | _ => false end.
Definition repl_alive (s : sess) : bool :=
  match replTerminal s with Some true => true | _ => false end.
Definition is_reset (ev : hostev) : bool :=
  match ev with Device c => String.eqb c "reset" | _ => false end.
Definition repl_opening (ev : hostev) : bool :=
  match ev with Create ReplT | Send ReplT _ => true | _ => false end.

End Sess.

(* ------------------------------------------------------------------ *)
(** ** [syncCommands.syncBaseline] (src/src/commands/syncCommands.ts) *)

Module Sync.

(** A normalized POSIX path as its list of segments: the device root ["/"]
    is [[]], ["/lib/net"] is [["lib"; "net"]], the manifest key
    ["lib/a.py"] is [["lib"; "a.py"]].  For a normalized absolute root and a
    manifest key, [path.posix.join] appends the segments and
    [path.posix.dirname] drops the last one (["/"] is its own dirname). *)
Definition path := list string.

Definition posix_join (root rel : path) : path := root ++ rel.
Definition posix_dirname (p : path) : path := removelast p.

(** [p.split('/').length] for an absolute path: ["/"] splits in two. *)
Definition split_length (p : path) : nat :=
  match p with [] => 2 | _ => S (length p) end.

(** [allDirectories.add(x)] on an insertion-ordered [Set]. *)
Definition set_add (x : path) (acc : list path) : list path :=
  if bool_decide (x ∈ acc) then acc else acc ++ [x].

(** [while (currentDir !== rootPath && currentDir !== '/') { add;
    currentDir = path.posix.dirname(currentDir); }]; each round drops a
    segment, so [S (length currentDir)] rounds are enough. *)
Fixpoint climb (fuel : nat) (rootPath currentDir : path) (acc : list path) : list path :=
  match fuel with
  | 0 => acc
  | S f =>
      if bool_decide (currentDir = rootPath) || bool_decide (currentDir = [])
      then acc
      else climb f rootPath (posix_dirname currentDir) (set_add currentDir acc)
  end.

(** The [for (const relativePath of files)] loop that fills
    [allDirectories] (["."] cannot occur for an absolute root). *)
Definition collect_directories (rootPath : path) (files : list path) : list path :=
  fold_left
    (fun acc relativePath =>
       let devicePath := posix_join rootPath relativePath in
       let deviceDir := posix_dirname devicePath in
       if negb (bool_decide (deviceDir = rootPath))
       then climb (S (length deviceDir)) rootPath deviceDir acc
       else acc)
    files [].

(** [Array.from(allDirectories).sort((a, b) => a.split('/').length -
    b.split('/').length)]: a stable sort on the segment count. *)
Fixpoint insert_by_depth (x : path) (l : list path) : list path :=
  match l with
  | [] => [x]
  | y :: r => if split_length y <=? split_length x then y :: insert_by_depth x r else x :: y :: r
  end.

Definition sort_by_depth (l : list path) : list path :=
  fold_left (fun acc x => insert_by_depth x acc) l [].

(** Device calls of the pass, in the order they are issued. *)
Inductive action := Mkdir (dir : path) | Upload (relativePath devicePath : path).

(** The upload loop: [await mp.uploadReplacing(localPath, devicePath)] for
    each file; the first failing upload throws out of the loop. *)
Fixpoint upload_files (rootPath : path) (upload_ok : path -> bool) (files : list path)
    : list action * bool :=
  match files with
  | [] => ([], true)
  | rel :: rest =>
      let a := Upload rel (posix_join rootPath rel) in
      if upload_ok rel then
        let (acts, ok) := upload_files rootPath upload_ok rest in (a :: acts, ok)
      else ([a], false)
  end.

(** The closure passed to [withAutoSuspend] (here [fn()] itself): the
    directory pass, whose [mp.mkdir] errors are caught, then the uploads.
    The boolean is [false] when an upload threw. *)
Definition upload_pass (rootPath : path) (files : list path) (upload_ok : path -> bool)
    : list action * bool :=
  let sortedDirectories := sort_by_depth (collect_directories rootPath files) in
  let (ups, ok) := upload_files rootPath upload_ok files in
  (map Mkdir sortedDirectories ++ ups, ok).

Section Baseline.
(** Manifests are opaque here; [manifest_files m] is [Object.keys(m.files)]. *)
Context {Manifest : Type} (manifest_files : Manifest -> list path).

(** [syncBaseline] on the stored manifest [store] (the file
    .mpy-workbench/esp32sync.json; [None] when it does not exist, which is
    what [isLocalSyncInitialized] tests).  [ws_open]: a workspace folder is
    open; [initialize]: the user answers "Initialize" to the modal prompt;
    [initialManifest] and [man] are the two [buildManifest] results.  The
    sync-local-root prompt only chooses the local directory and is left
    out.  Returns the stored manifest at the end and the device calls. *)
Definition syncBaseline (store : option Manifest) (ws_open initialize : bool)
    (initialManifest man : Manifest) (rootPath : path) (upload_ok : path -> bool)
    : option Manifest * list action :=
  if negb ws_open then (store, []) else
  match
    match store with
    | Some _ => Some store
    | None => if initialize then Some (Some initialManifest) else None
    end
  with
  | None => (store, [])
  | Some store1 =>
      let files := manifest_files man in
      match files with
      | [] => (Some man, [])
      | _ =>
          let (acts, ok) := upload_pass rootPath files upload_ok in
          (* the error skips [saveManifest(manifestPath, man)] *)
          if ok then (Some man, acts) else (store1, acts)
      end
  end.
End Baseline.

End Sync.

(* ------------------------------------------------------------------ *)
(** ** Device paths and the baseline download of src/src/commands/syncCommands.ts *)

Module SyncPaths.
Local Open Scope string_scope.

(** [toLocalRelative(devicePath, rootPath)] of syncCommands.ts: the
    [RegExp] is [rootPath] with every metacharacter escaped, anchored at
    the start, so it removes [rootPath] as a literal prefix; then one
    leading ["/"] goes. *)
Definition toLocalRelative (devicePath rootPath : string) : string :=
  Sess.replace_prefix "/" (Sess.replace_prefix rootPath devicePath).

(** [str.replace(/\/$/, "")] *)
Fixpoint strip_trailing_slash (str : string) : string :=
  match str with
  | EmptyString => EmptyString
  | String c EmptyString => if Ascii.eqb c "/"%char then EmptyString else str
  | String c str' => String c (strip_trailing_slash str')
  end.

(** The fallback mapping of [toDevicePath(localRel, rootPath)] in
    src/src/board/mpremoteCommands.ts ([localRel || ""] is [localRel]). *)
Definition toDevicePath_fallback (localRel rootPath : string) : string :=
  let normRoot := if String.eqb rootPath "/" then "/" else strip_trailing_slash rootPath in
  if String.eqb normRoot "/" then "/" ++ localRel else normRoot ++ "/" ++ localRel.

End SyncPaths.

Module SyncFromBoard.
Import SyncPaths.

(** An entry of [mp.listTreeStats(rootPath)]. *)
Record dev_entry := mkEntry { entry_path : string; isDir : bool }.

(** The download loop: for each file, [fs.mkdir] of its local directory
    and [mp.cpFromDevice(file.path, abs)]; [cp_ok p] tells whether both
    succeed for device path [p].  Records (device path, [rel]) per file;
    the first failure throws out of the loop. *)
Fixpoint download_files (rootPath : string) (cp_ok : string -> bool) (files : list dev_entry)
    : list (string * string) * bool :=
  match files with
  | [] => ([], true)
  | file :: rest =>
      let d := (entry_path file, toLocalRelative (entry_path file) rootPath) in
      if cp_ok (entry_path file) then
        let (ds, ok) := download_files rootPath cp_ok rest in (d :: ds, ok)
      else ([d], false)
  end.

Section FromBoard.
Context {Manifest : Type}.

(** [syncBaselineFromBoard] on the stored manifest [store] ([None] when
    esp32sync.json does not exist).  [ws_open], [initialize],
    [initialManifest] as for [syncBaseline]; [deviceStats] is what
    [mp.listTreeStats] returns ([None]: it throws, caught by the outer
    [catch]); [man] is the manifest rebuilt from the local folder after the
    downloads.  Its [withAutoSuspend] is the local one of syncCommands.ts,
    [fn()] itself.  Returns the stored manifest and the downloads. *)
Definition syncBaselineFromBoard (store : option Manifest) (ws_open initialize : bool)
    (initialManifest man : Manifest) (rootPath : string)
    (deviceStats : option (list dev_entry)) (cp_ok : string -> bool)
    : option Manifest * list (string * string) :=
  if negb ws_open then (store, []) else
  match
    match store with
    | Some _ => Some store
    | None => if initialize then Some (Some initialManifest) else None
    end
  with
  | None => (store, [])
  | Some store1 =>
      match deviceStats with
      | None => (store1, [])
      | Some stats =>
          let files := List.filter (fun e => negb (isDir e)) stats in
          (* [total === 0] only returns from the progress callback *)
          let (ds, ok) := download_files rootPath cp_ok files in
          if ok then (Some man, ds) else (store1, ds)
      end
  end.
End FromBoard.

End SyncFromBoard.

(* ------------------------------------------------------------------ *)
(** ** The promise lock of [MpRemoteManagerClass] (src/src/board/MpRemoteManager.ts) *)

Module RunLock.

Inductive kind := RunCall | SpawnCall.

(** [Stuck]: the invocation is over but never called [release]. *)
Inductive lphase := LWaiting | Holding | Released | Stuck.

Definition lphase_eqb (a b : lphase) : bool :=
  match a, b with
  | LWaiting, LWaiting | Holding, Holding | Released, Released | Stuck, Stuck => true
  | _, _ => false
  end.

(** One [run] or [spawn] call: [prev], the value of [this._lock] it awaited
    ([None] for [Promise.resolve()]), and where it is. *)
Record invocation := mkInv { inv_kind : kind; prev : option nat; lph : lphase }.

(** [_lock = Some k]: the promise [prev_k.then(() => myLock_k)] set by
    invocation [k]. *)
Record lstate := mkL { invs : list invocation; _lock : option nat }.

Definition init : lstate := mkL [] None.

(** How an invocation that holds the lock ends. *)
Inductive exit_path :=
  | ExecCallback (failed : bool)  (** [exec]'s callback, after success, failure or a kill *)
  | ExecThrows                    (** [exec] throws synchronously *)
  | ChildExit                     (** spawn: the child's ['exit'] event *)
  | ChildError.                   (** spawn: the child's ['error'] event *)

(** Whether the path calls [release()]; [None] for paths the kind has not. *)
Definition releases (k : kind) (p : exit_path) : option bool :=
  match k, p with
  | RunCall, ExecCallback _ => Some true  (* try { ... } finally { release(); } *)
  | RunCall, ExecThrows => Some true      (* catch (e) { ...; try { release(); } catch {} ... } *)
  | SpawnCall, ChildExit => Some true
  | SpawnCall, ChildError => Some true
  | SpawnCall, ExecThrows => Some false   (* exec is outside any try *)
  | _, _ => None
  end.

(** [prev] has settled: every link of the chain behind it released. *)
Fixpoint lock_settled (fuel : nat) (l : list invocation) (p : option nat) : bool :=
  match p with
  | None => true
  | Some k =>
      match fuel with
      | 0 => false
      | S f =>
          match l !! k with
          | Some i => lphase_eqb (lph i) Released && lock_settled f l (prev i)
          | None => false
          end
      end
  end.

Inductive levent :=
  | Issue (k : kind)                (** [const prev = this._lock; this._lock = prev.then(() => myLock)] *)
  | Acquire (i : nat)               (** [await prev] returns *)
  | Exit (i : nat) (p : exit_path).

Definition set_lph (s : lstate) (i : nat) (v : invocation) (ph : lphase) : lstate :=
  mkL (<[i := mkInv (inv_kind v) (prev v) ph]> (invs s)) (_lock s).

Definition lstep (s : lstate) (e : levent) : option lstate :=
  match e with
  | Issue k => Some (mkL (invs s ++ [mkInv k (_lock s) LWaiting]) (Some (length (invs s))))
  | Acquire i =>
      match invs s !! i with
      | Some v =>
          if lphase_eqb (lph v) LWaiting && lock_settled (length (invs s)) (invs s) (prev v)
          then Some (set_lph s i v Holding) else None
      | None => None
      end
  | Exit i p =>
      match invs s !! i with
      | Some v =>
          if lphase_eqb (lph v) Holding then
            match releases (inv_kind v) p with
            | Some true => Some (set_lph s i v Released)
            | Some false => Some (set_lph s i v Stuck)
            | None => None
            end
          else None
      | None => None
      end
  end.

Fixpoint lrun (s : lstate) (evs : list levent) : option lstate :=
  match evs with
  | [] => Some s
  | e :: evs' => match lstep s e with Some s' => lrun s' evs' | None => None end
  end.

Definition lphase_of (s : lstate) (i : nat) : option lphase :=
  option_map lph (invs s !! i).

(** Every invocation that got past [await prev] found each earlier one
    released. *)
Definition lock_ordered (l : list invocation) : Prop :=
  forall i j vi vj, i < j -> l !! i = Some vi -> l !! j = Some vj ->
    lph vj <> LWaiting -> lph vi = Released.

(** Shape of the lock: each invocation awaits the one issued just before. *)
Definition lock_inv (s : lstate) : Prop :=
  _lock s = OpQueue.chain_pred (length (invs s)) /\
  (forall i v, invs s !! i = Some v -> prev v = OpQueue.chain_pred i) /\
  lock_ordered (invs s).

End RunLock.

(* ------------------------------------------------------------------ *)
(** ** Concrete sessions used by the examples below *)

Module Scenarios.
Import Sess.
Local Open Scope string_scope.

(** A board on a selected serial port, with a Python interpreter found. *)
Definition s0 : sess :=
  mkSess None None false None "serial:///dev/ttyUSB0" (Some "python3") [] [].

(** The REPL opened with [strictConnect] and [interruptOnConnect]. *)
Definition repl_only : sess := snd (openReplTerminal true true s0).

(** [runActiveFile] on main.py, then the REPL opened: [openReplTerminal]
    leaves the run terminal alone, so both terminals are open. *)
Definition run_then_repl : sess :=
  snd (bindM (runActiveFile "main.py") (fun _ => openReplTerminal true true) s0).

(** The REPL closed by the user after it was opened. *)
Definition user_closed : sess := snd (closeReplTerminal true repl_only).

Definition device_not_configured : string := "SerialException: device not configured".

(** A board whose first two device calls fail with a transient error. *)
Definition flaky_board : sess :=
  set_results s0 [Rejected device_not_configured; Rejected device_not_configured].

End Scenarios.

Module OpQueueFacts.
Import OpQueue.

Lemma phase_eqb_true a b : phase_eqb a b = true <-> a = b.
Proof. destruct a, b; simpl; split; congruence. Qed.


Lemma chain_inv_init : chain_inv init.
Proof.
  split; [done|]. split; [done|]. split.
  - intros i o H. simpl in H. rewrite lookup_nil in H. discriminate.
  - intros i j oi oj _ H. simpl in H. rewrite lookup_nil in H. discriminate.
Qed.

Lemma ordered_insert_active l i o ph :
  ordered l -> l !! i = Some o -> op_phase o <> Waiting -> op_phase o <> Finished ->
  ph <> Waiting -> ordered (<[i := mkOp (op_pred o) ph]> l).
Proof.
  intros Hord Hi Hnw Hnf Hph a b oa ob Hab Ha Hb Hb'.
  apply list_lookup_insert_Some in Ha, Hb.
  destruct Ha as [(<- & <- & _) | (Hai & Ha)];
  destruct Hb as [(<- & <- & _) | (Hbi & Hb)].
  - lia.
  - exfalso. apply Hnf. exact (Hord _ _ o ob Hab Hi Hb Hb').
  - exact (Hord _ _ oa o Hab Ha Hi Hnw).
  - exact (Hord a b oa ob Hab Ha Hb Hb').
Qed.

Lemma ordered_insert_start l i o p :
  ordered l -> l !! i = Some o -> op_phase o = Waiting ->
  (forall a oa, a < i -> l !! a = Some oa -> op_phase oa = Finished) ->
  ordered (<[i := mkOp p Suspending]> l).
Proof.
  intros Hord Hi Hw Hbefore a b oa ob Hab Ha Hb Hb'.
  apply list_lookup_insert_Some in Ha, Hb.
  destruct Ha as [(<- & <- & _) | (Hai & Ha)];
  destruct Hb as [(<- & <- & _) | (Hbi & Hb)].
  - lia.
  - pose proof (Hord _ _ o ob Hab Hi Hb Hb'). congruence.
  - exact (Hbefore _ oa Hab Ha).
  - exact (Hord a b oa ob Hab Ha Hb Hb').
Qed.

Lemma preds_insert (l : list op) i o ph :
  (forall k o', l !! k = Some o' -> op_pred o' = chain_pred k) ->
  l !! i = Some o ->
  forall k o', <[i := mkOp (op_pred o) ph]> l !! k = Some o' -> op_pred o' = chain_pred k.
Proof.
  intros Hp Hi k o' Hk. apply list_lookup_insert_Some in Hk.
  destruct Hk as [(<- & <- & _) | (_ & Hk)]; simpl; eauto.
Qed.

Lemma advance_chain s i from to s' :
  chain_inv s -> from <> Waiting -> from <> Finished -> to <> Waiting ->
  advance s i from to = Some s' -> chain_inv s'.
Proof.
  intros (Hq & Hsk & Hp & Hord) Hf1 Hf2 Ht Hadv. unfold advance in Hadv.
  destruct (ops s !! i) as [o|] eqn:Hi; [|discriminate].
  destruct (phase_eqb (op_phase o) from) eqn:Hph; [|discriminate].
  apply phase_eqb_true in Hph. injection Hadv as <-.
  unfold set_phase; repeat split; simpl.
  - by rewrite length_insert.
  - exact Hsk.
  - eapply preds_insert; eauto.
  - apply ordered_insert_active; auto; congruence.
Qed.

Lemma step_chain s e s' :
  chain_inv s -> serial_event e = true -> step s e = Some s' -> chain_inv s'.
Proof.
  intros Hinv He Hstep. pose proof Hinv as (Hq & Hsk & Hp & Hord).
  destruct e as [en pr| |i|i|i|i]; simpl in He, Hstep.
  - apply andb_prop in He as [-> Hpr]. destruct pr; [discriminate|].
    rewrite Hsk in Hstep. simpl in Hstep. injection Hstep as <-.
    repeat split; simpl.
    + rewrite length_app, Nat.add_1_r. reflexivity.
    + intros k o Hk. apply lookup_snoc_Some in Hk as [(_ & Hk) | (-> & <-)].
      * eauto.
      * simpl. exact Hq.
    + intros a b oa ob Hab Ha Hb Hb'.
      apply lookup_snoc_Some in Ha as [(_ & Ha) | (-> & <-)];
      apply lookup_snoc_Some in Hb as [(_ & Hb) | (-> & <-)].
      * exact (Hord a b oa ob Hab Ha Hb Hb').
      * simpl in Hb'. congruence.
      * apply lookup_lt_Some in Hb. lia.
      * lia.
  - discriminate.
  - destruct (ops s !! i) as [o|] eqn:Hi; [|discriminate].
    destruct (phase_eqb (op_phase o) Waiting) eqn:Hw; [|discriminate].
    destruct (settled s (op_pred o)) eqn:Hset; [|discriminate].
    simpl in Hstep. injection Hstep as <-. apply phase_eqb_true in Hw.
    unfold set_phase; repeat split; simpl.
    + by rewrite length_insert.
    + exact Hsk.
    + eapply preds_insert; eauto.
    + apply ordered_insert_start with (o := o); auto.
      intros a oa Ha Hla.
      rewrite (Hp i o Hi) in Hset. destruct i as [|j]; [lia|].
      simpl in Hset. destruct (ops s !! j) as [oj|] eqn:Hj; [|discriminate].
      apply phase_eqb_true in Hset.
      destruct (decide (a = j)) as [->|Hne].
      * congruence.
      * apply (Hord a j oa oj); auto; [lia|]. rewrite Hset. discriminate.
  - eapply advance_chain; eauto; discriminate.
  - eapply advance_chain; eauto; discriminate.
  - eapply advance_chain; eauto; discriminate.
Qed.

Lemma run_chain s evs s' :
  chain_inv s -> forallb serial_event evs = true -> run s evs = Some s' -> chain_inv s'.
Proof.
  revert s. induction evs as [|e evs IH]; simpl; intros s Hinv Hall Hrun.
  - congruence.
  - apply andb_prop in Hall as [He Hall].
    destruct (step s e) as [s1|] eqn:Hs; [|discriminate].
    apply (IH s1); [eapply step_chain; eauto | exact Hall | exact Hrun].
Qed.

Lemma filter_nil_if {A} (P : A -> Prop) `{forall x, Decision (P x)} (l : list A) :
  (forall k y, l !! k = Some y -> ~ P y) -> filter P l = [].
Proof.
  induction l as [|x l IH]; intros Hno; [done|].
  rewrite filter_cons. case_decide as Hx.
  - exfalso. exact (Hno 0 x eq_refl Hx).
  - apply IH. intros k y Hk. exact (Hno (S k) y Hk).
Qed.

Lemma filter_at_most_one {A} (P : A -> Prop) `{forall x, Decision (P x)} (l : list A) :
  (forall i j x y, i < j -> l !! i = Some x -> l !! j = Some y -> P x -> P y -> False) ->
  length (filter P l) <= 1.
Proof.
  induction l as [|x l IH]; intros Hno; [simpl; lia|].
  rewrite filter_cons. case_decide as Hx.
  - rewrite (filter_nil_if P l); [simpl; lia|].
    intros k y Hk Hy. exact (Hno 0 (S k) x y ltac:(lia) eq_refl Hk Hx Hy).
  - apply IH. intros i j a b Hij Ha Hb. exact (Hno (S i) (S j) a b ltac:(lia) Ha Hb).
Qed.

Lemma chain_in_flight s : chain_inv s -> in_flight s <= 1.
Proof.
  intros (_ & _ & _ & Hord). unfold in_flight. apply filter_at_most_one.
  intros i j x y Hij Hx Hy Px Py.
  apply phase_eqb_true in Px, Py.
  assert (op_phase x = Finished) by (apply (Hord i j x y); auto; congruence).
  congruence.
Qed.

End OpQueueFacts.

Module OpQueueDrain.
Import OpQueue OpQueueFacts.


Lemma back_inv_init : back_inv init.
Proof.
  split; simpl; [discriminate|]. intros i o k H. rewrite lookup_nil in H. discriminate.
Qed.

Lemma back_insert s i o ph :
  back_inv s -> ops s !! i = Some o ->
  back_inv (mkQ (<[i := mkOp (op_pred o) ph]> (ops s)) (opQueue s) (skipIdleOnce s)).
Proof.
  intros [Hq Hp] Hi. split; simpl.
  - rewrite length_insert. exact Hq.
  - intros a oa k Ha Hk. apply list_lookup_insert_Some in Ha.
    destruct Ha as [(<- & <- & _) | (_ & Ha)]; simpl in Hk; eauto.
Qed.

Lemma step_back s e s' : back_inv s -> step s e = Some s' -> back_inv s'.
Proof.
  intros Hb Hstep. pose proof Hb as [Hq Hp].
  destruct e as [en pr| |i|i|i|i]; simpl in Hstep.
  - destruct (negb en || skipIdleOnce s); injection Hstep as <-; split; simpl.
    + intros k Hk. rewrite length_app; simpl.
      destruct pr; [discriminate|]. apply Hq in Hk. lia.
    + intros a oa k Ha Hk. apply lookup_snoc_Some in Ha as [(_ & Ha) | (-> & <-)].
      * eauto.
      * discriminate.
    + intros k Hk. injection Hk as <-. rewrite length_app; simpl. lia.
    + intros a oa k Ha Hk. apply lookup_snoc_Some in Ha as [(_ & Ha) | (-> & <-)].
      * eauto.
      * simpl in Hk. destruct pr; [discriminate|]. auto.
  - injection Hstep as <-. exact Hb.
  - destruct (ops s !! i) as [o|] eqn:Hi; [|discriminate].
    destruct (phase_eqb (op_phase o) Waiting && settled s (op_pred o)); [|discriminate].
    injection Hstep as <-. apply back_insert; auto.
  - unfold advance in Hstep. destruct (ops s !! i) as [o|] eqn:Hi; [|discriminate].
    destruct (phase_eqb _ _); [|discriminate]. injection Hstep as <-. apply back_insert; auto.
  - unfold advance in Hstep. destruct (ops s !! i) as [o|] eqn:Hi; [|discriminate].
    destruct (phase_eqb _ _); [|discriminate]. injection Hstep as <-. apply back_insert; auto.
  - unfold advance in Hstep. destruct (ops s !! i) as [o|] eqn:Hi; [|discriminate].
    destruct (phase_eqb _ _); [|discriminate]. injection Hstep as <-. apply back_insert; auto.
Qed.

Lemma run_back s evs s' : back_inv s -> run s evs = Some s' -> back_inv s'.
Proof.
  revert s. induction evs as [|e evs IH]; simpl; intros s Hb Hrun.
  - congruence.
  - destruct (step s e) as [s1|] eqn:Hs; [|discriminate].
    apply (IH s1); [eapply step_back; eauto | exact Hrun].
Qed.

Lemma run_app s evs1 evs2 :
  run s (evs1 ++ evs2) = match run s evs1 with Some s1 => run s1 evs2 | None => None end.
Proof.
  revert s. induction evs1 as [|e evs1 IH]; intros s; simpl; [done|].
  destruct (step s e); [apply IH|done].
Qed.


Lemma complete_op s i o :
  ops s !! i = Some o ->
  (op_phase o = Waiting -> settled s (op_pred o) = true) ->
  run s (finish_events (op_phase o) i) =
    Some (mkQ (<[i := mkOp (op_pred o) Finished]> (ops s)) (opQueue s) (skipIdleOnce s)).
Proof.
  intros Hi Hset. pose proof (lookup_lt_Some _ _ _ Hi) as Hlt.
  destruct o as [p ph]; simpl in *.
  destruct ph; simpl; unfold advance, set_phase; simpl; rewrite ?Hi; simpl.
  - rewrite Hset by done. simpl.
    rewrite !list_lookup_insert_eq by (rewrite ?length_insert; lia). simpl.
    rewrite !list_lookup_insert_eq by (rewrite ?length_insert; lia). simpl.
    rewrite !list_lookup_insert_eq by (rewrite ?length_insert; lia). simpl.
    rewrite !list_insert_insert_eq. done.
  - rewrite !list_lookup_insert_eq by (rewrite ?length_insert; lia). simpl.
    rewrite !list_lookup_insert_eq by (rewrite ?length_insert; lia). simpl.
    rewrite !list_insert_insert_eq. done.
  - rewrite !list_lookup_insert_eq by (rewrite ?length_insert; lia). simpl.
    rewrite !list_insert_insert_eq. done.
  - done.
  - rewrite list_insert_id by exact Hi. destruct s; reflexivity.
Qed.

Lemma drain_prefix k : forall s, back_inv s -> k <= length (ops s) ->
  exists evs s', run s evs = Some s' /\ back_inv s' /\ length (ops s') = length (ops s) /\
    (forall i o, i < k -> ops s' !! i = Some o -> op_phase o = Finished).
Proof.
  induction k as [|k IH]; intros s Hb Hk.
  - exists [], s. split; [done|]. split; [done|]. split; [done|]. intros; lia.
  - destruct (IH s Hb ltac:(lia)) as (evs & s1 & Hrun & Hb1 & Hlen & Hfin).
    destruct (lookup_lt_is_Some_2 (ops s1) k ltac:(lia)) as [o Ho].
    exists (evs ++ finish_events (op_phase o) k).
    eexists. split; [|split; [|split]].
    + rewrite run_app, Hrun. apply complete_op; [exact Ho|].
      intros _. destruct (op_pred o) as [j|] eqn:Hp; [|done]. simpl.
      destruct Hb1 as [_ Hback]. pose proof (Hback k o j Ho Hp) as Hjk.
      destruct (lookup_lt_is_Some_2 (ops s1) j ltac:(lia)) as [oj Hj].
      rewrite Hj. apply phase_eqb_true. exact (Hfin j oj Hjk Hj).
    + apply back_insert; auto.
    + simpl. rewrite length_insert. exact Hlen.
    + intros i oi Hik Hi. simpl in Hi. apply list_lookup_insert_Some in Hi.
      destruct Hi as [(_ & <- & _) | (Hne & Hi)]; [done|].
      apply (Hfin i oi); [lia|exact Hi].
Qed.

Lemma drain s : back_inv s ->
  exists evs s', run s evs = Some s' /\ length (ops s') = length (ops s) /\
    (forall i o, ops s' !! i = Some o -> op_phase o = Finished).
Proof.
  intros Hb. destruct (drain_prefix (length (ops s)) s Hb ltac:(lia))
    as (evs & s' & Hrun & _ & Hlen & Hfin).
  exists evs, s'. repeat split; auto.
  intros i o Hi. apply (Hfin i o); [|exact Hi].
  rewrite <- Hlen. exact (lookup_lt_Some _ _ _ Hi).
Qed.

End OpQueueDrain.

Module SessFacts.
Import Sess.

Lemma ensureIdle_resolves s : fst (ensureIdle s) = Resolved tt.
Proof.
  unfold ensureIdle, try_catch, device_call.
  destruct (device_results s) as [|[[]|e] rest]; reflexivity.
Qed.

Lemma try_catch_ignore_resolves (m : M unit) s :
  fst (try_catch m (fun _ => mret' tt) s) = Resolved tt.
Proof. unfold try_catch. destruct (m s) as [[[]|e] s1]; reflexivity. Qed.

Lemma try_catch_ignore_state (m : M unit) s :
  snd (try_catch m (fun _ => mret' tt) s) = snd (m s).
Proof. unfold try_catch. destruct (m s) as [[[]|e] s1]; reflexivity. Qed.

Lemma suspend_snapshot s :
  fst (suspendSerialSessionsForAutoSync s) =
    Resolved (mkSnap (run_alive s) (repl_alive s)
                (if run_alive s then lastRunCommand s else None)).
Proof.
  destruct s as [rt pt uc lr cn py dr lg].
  unfold run_alive, repl_alive; simpl.
  destruct rt as [[|]|], pt as [[|]|]; reflexivity.
Qed.

Lemma withAutoSuspend_queued_state {A} (restore : AutoSuspendSnapshot -> M unit) (fn : M A) s :
  snd (withAutoSuspend_with true false restore fn s) =
    snd (restore (mkSnap (run_alive s) (repl_alive s)
                   (if run_alive s then lastRunCommand s else None))
           (snd (fn (snd (ensureIdle (snd (suspendSerialSessionsForAutoSync s))))))).
Proof.
  unfold withAutoSuspend_with. simpl. unfold bindM at 1.
  pose proof (suspend_snapshot s) as Hs.
  destruct (suspendSerialSessionsForAutoSync s) as [r1 s1] eqn:E1. simpl in Hs. subst r1.
  unfold try_finally, bindM.
  pose proof (ensureIdle_resolves s1) as Hi.
  destruct (ensureIdle s1) as [r2 s2] eqn:E2. simpl in Hi. subst r2. simpl.
  rewrite E2. simpl.
  destruct (fn s2) as [r3 s3] eqn:E3. simpl.
  unfold try_catch.
  destruct (restore _ s3) as [[[]|e] s4]; reflexivity.
Qed.

(** [getReplTerminal] opens a terminal whenever a port is selected and the
    interpreter is known. *)
Lemma getReplTerminal_opens s :
  connect_selected (connect s) = true -> pythonPath s <> None ->
  replTerminal (snd (getReplTerminal s)) = Some true.
Proof.
  intros Hsel Hpy.
  destruct s as [rt pt uc lr cn py dr lg]; simpl in *.
  unfold getReplTerminal; simpl.
  destruct pt as [[|]|]; simpl; [reflexivity| |];
    rewrite Hsel; simpl; destruct py; [reflexivity| |reflexivity|];
    congruence.
Qed.

Lemma restart_opens s :
  connect_selected (connect s) = true -> pythonPath s <> None ->
  replTerminal (snd (restartReplInExistingTerminal s)) = Some true.
Proof.
  intros Hsel Hpy.
  unfold restartReplInExistingTerminal.
  rewrite try_catch_ignore_state.
  unfold bindM at 1, gets; simpl. rewrite Hsel; simpl.
  unfold bindM, repl_present, isReplOpen, gets; simpl.
  destruct (replTerminal s) as [[|]|] eqn:Ert; simpl;
    try (apply getReplTerminal_opens; assumption).
  destruct s as [rt pt uc lr cn py dr lg]; simpl in *.
  destruct py; [|congruence]. simpl. exact Ert.
Qed.

(** The restore step for [openReplEmpty] when the run terminal is not
    replayed. *)
Lemma restore_openReplEmpty_reopens snap resume s :
  (runWasOpen snap = false \/ snapLastRun snap = None) ->
  replWasOpen snap = true -> userClosedRepl s = false ->
  connect_selected (connect s) = true -> pythonPath s <> None ->
  replTerminal (snd (restoreSerialSessionsFromSnapshot snap resume openReplEmpty s)) = Some true.
Proof.
  intros Hnr Hrw Huc Hsel Hpy.
  unfold restoreSerialSessionsFromSnapshot.
  assert (Hb : runWasOpen snap = false \/
               (runWasOpen snap = true /\ snapLastRun snap = None)).
  { destruct (runWasOpen snap); [right|left]; intuition congruence. }
  destruct Hb as [-> | [-> ->]]; rewrite Hrw;
  unfold bindM at 1, gets; simpl; rewrite Huc; simpl;
  unfold bindM;
  pose proof (restart_opens s Hsel Hpy) as Hr;
  (destruct (restartReplInExistingTerminal s) as [[[]|e] s1]; simpl in *; [|exact Hr]);
  destruct resume; exact Hr.
Qed.

Lemma rerun_effect info s :
  fst (rerunLastRunCommand info s) = Resolved tt /\
  log (snd (rerunLastRunCommand info s)) =
    log s ++ (if repl_alive s then [Dispose ReplT] else []) ++
    (if run_alive s then [Send RunT ctrl_c] else [Create RunT]) ++
    [Send RunT (cmd info)] /\
  runTerminal (snd (rerunLastRunCommand info s)) = Some true /\
  replTerminal (snd (rerunLastRunCommand info s)) =
    (if repl_alive s then None else replTerminal s).
Proof.
  destruct s as [rt pt uc lr cn py dr lg].
  unfold run_alive, repl_alive; simpl.
  destruct rt as [[|]|], pt as [[|]|]; simpl;
    (split; [reflexivity|]); rewrite <- ?app_assoc; auto.
Qed.

(** When the user closed the REPL, the restore step brings up no REPL. *)
Lemma restore_user_closed snap resume beh s :
  userClosedRepl s = true ->
  exists new,
    log (snd (restoreSerialSessionsFromSnapshot snap resume beh s)) = log s ++ new /\
    forallb (fun ev => negb (repl_opening ev)) new = true /\
    (replTerminal (snd (restoreSerialSessionsFromSnapshot snap resume beh s)) = Some true ->
     replTerminal s = Some true).
Proof.
  intros Huc. unfold restoreSerialSessionsFromSnapshot.
  destruct (runWasOpen snap), (snapLastRun snap) as [info|];
    [ | destruct (replWasOpen snap) ..];
    try (unfold bindM, gets; simpl; rewrite ?Huc; simpl;
         exists []; rewrite app_nil_r; auto; fail).
  destruct (rerun_effect info s) as (_ & Hlog & _ & Hrepl).
  rewrite Hlog, Hrepl. eexists; split; [reflexivity|].
  split.
  - destruct (repl_alive s), (run_alive s); reflexivity.
  - unfold repl_alive. destruct (replTerminal s) as [[|]|]; simpl; congruence.
Qed.

Lemma device_call_log c s :
  log (snd (device_call c s)) = log s ++ [Device c].
Proof. unfold device_call. destruct (device_results s); reflexivity. Qed.

Lemma handshake_resolves interrupt s :
  fst (strictConnectHandshake interrupt s) = Resolved tt.
Proof.
  unfold strictConnectHandshake. destruct interrupt; [|reflexivity]. simpl.
  destruct ((bindM (device_call "reset") (fun _ => device_call "ls /")) s) as [[]s1]; [reflexivity|].
  simpl. destruct ((bindM (device_call "reset") (fun _ => device_call "ls /")) s1) as [[]s2]; reflexivity.
Qed.

Lemma reset_ls_log s :
  exists new, log (snd ((bindM (device_call "reset") (fun _ => device_call "ls /")) s)) = log s ++ new /\
    length (List.filter is_reset new) <= 1.
Proof.
  unfold bindM. pose proof (device_call_log "reset" s) as H1.
  destruct (device_call "reset" s) as [[[]|e] s1]; simpl in *.
  - rewrite device_call_log, H1, <- app_assoc. eexists; split; [reflexivity|].
    simpl. lia.
  - rewrite H1. eexists; split; [reflexivity|]. simpl. lia.
Qed.

Lemma handshake_resets interrupt s :
  exists new, log (snd (strictConnectHandshake interrupt s)) = log s ++ new /\
    length (List.filter is_reset new) <= 2.
Proof.
  unfold strictConnectHandshake. destruct interrupt; simpl.
  2:{ exists []. rewrite app_nil_r. simpl. split; [reflexivity|lia]. }
  destruct (reset_ls_log s) as (n1 & H1 & C1).
  destruct ((bindM (device_call "reset") (fun _ => device_call "ls /")) s) as [r1 s1]; simpl in H1.
  destruct r1.
  { exists n1; split; [exact H1|lia]. }
  simpl.
  destruct (reset_ls_log s1) as (n2 & H2 & C2).
  destruct ((bindM (device_call "reset") (fun _ => device_call "ls /")) s1) as [r2 s2]; simpl in H2.
  exists (n1 ++ n2). rewrite app_assoc, <- H1.
  destruct r2; (split; [exact H2|]); rewrite List.filter_app, length_app; lia.
Qed.

Lemma getReplTerminal_not_transient s e s' :
  getReplTerminal s = (Rejected e, s') -> transient_message e = false.
Proof.
  unfold getReplTerminal.
  destruct (replTerminal s) as [[|]|]; [congruence| |];
  (destruct (negb (connect_selected (connect (set_repl s None))));
   [intros H; injection H as <- _; vm_compute; reflexivity|]);
  unfold buildShellCommand, bindM, gets; simpl;
  destruct (pythonPath s); simpl; try congruence;
  intros H; injection H as <- _; vm_compute; reflexivity.
Qed.

(** In strict mode there is one attempt: the handshake, then the terminal. *)
Lemma openRepl_strict interrupt s :
  openReplTerminal interrupt true s = getReplTerminal (snd (strictConnectHandshake interrupt s)).
Proof.
  unfold openReplTerminal. simpl. unfold bindM at 1.
  pose proof (handshake_resolves interrupt s) as Hh.
  destruct (strictConnectHandshake interrupt s) as [r s1]. simpl in *. subst r.
  destruct (getReplTerminal s1) as [[[]|e] s2] eqn:E; [reflexivity|].
  rewrite (getReplTerminal_not_transient _ _ _ E). reflexivity.
Qed.

End SessFacts.

Module RunLockFacts.
Import RunLock.

Lemma lphase_eqb_true a b : lphase_eqb a b = true <-> a = b.
Proof. destruct a, b; simpl; split; congruence. Qed.

Lemma lock_inv_init : lock_inv init.
Proof.
  split; [reflexivity|]. split.
  - intros i v H. simpl in H. rewrite lookup_nil in H. discriminate.
  - intros i j vi vj _ H. simpl in H. rewrite lookup_nil in H. discriminate.
Qed.

Lemma settled_chain l fuel k :
  (forall i v, l !! i = Some v -> prev v = OpQueue.chain_pred i) ->
  lock_settled fuel l (OpQueue.chain_pred k) = true <->
  (k <= fuel /\ forall j, j < k -> exists w, l !! j = Some w /\ lph w = Released).
Proof.
  intros Hp. revert fuel. induction k as [|k IH]; intros fuel; simpl.
  - split; [intros _; split; [lia|intros j Hj; lia]|destruct fuel; reflexivity].
  - destruct fuel as [|f]; simpl.
    + split; [discriminate|intros [Hk _]; lia].
    + destruct (l !! k) as [w|] eqn:Hk.
      * rewrite (Hp k w Hk), andb_true_iff, lphase_eqb_true, IH.
        split.
        -- intros (Hw & Hle & Hall). split; [lia|].
           intros j Hj. destruct (decide (j = k)) as [->|Hne]; [eauto|].
           apply Hall. lia.
        -- intros (Hle & Hall). destruct (Hall k ltac:(lia)) as (w' & Hw' & Hr).
           rewrite Hk in Hw'. injection Hw' as <-. split; [exact Hr|]. split; [lia|].
           intros j Hj. apply Hall. lia.
      * split; [discriminate|]. intros (_ & Hall).
        destruct (Hall k ltac:(lia)) as (w & Hw & _). congruence.
Qed.

Lemma lock_ordered_set l i v ph :
  lock_ordered l -> l !! i = Some v -> lph v <> Released ->
  (lph v = LWaiting -> forall a va, a < i -> l !! a = Some va -> lph va = Released) ->
  lock_ordered (<[i := mkInv (inv_kind v) (prev v) ph]> l).
Proof.
  intros Hord Hi Hnr Hbefore a b va vb Hab Ha Hb Hb'.
  apply list_lookup_insert_Some in Ha, Hb.
  destruct Ha as [(<- & <- & _) | (Hai & Ha)];
  destruct Hb as [(<- & <- & _) | (Hbi & Hb)].
  - lia.
  - exfalso. exact (Hnr (Hord _ _ v vb Hab Hi Hb Hb')).
  - destruct (lph v) eqn:Hw.
    + exact (Hbefore eq_refl a va Hab Ha).
    + apply (Hord a i va v Hab Ha Hi). rewrite Hw. discriminate.
    + congruence.
    + apply (Hord a i va v Hab Ha Hi). rewrite Hw. discriminate.
  - exact (Hord a b va vb Hab Ha Hb Hb').
Qed.

Lemma prevs_set (l : list invocation) i v ph :
  (forall k w, l !! k = Some w -> prev w = OpQueue.chain_pred k) ->
  l !! i = Some v ->
  forall k w, <[i := mkInv (inv_kind v) (prev v) ph]> l !! k = Some w ->
    prev w = OpQueue.chain_pred k.
Proof.
  intros Hp Hi k w Hk. apply list_lookup_insert_Some in Hk.
  destruct Hk as [(<- & <- & _) | (_ & Hk)]; simpl; eauto.
Qed.

Lemma lstep_inv s e s' : lock_inv s -> lstep s e = Some s' -> lock_inv s'.
Proof.
  intros (Hq & Hp & Hord) Hstep.
  destruct e as [k|i|i p]; simpl in Hstep.
  - injection Hstep as <-. split; [|split]; simpl.
    + rewrite length_app, Nat.add_1_r. reflexivity.
    + intros j v Hj. apply lookup_snoc_Some in Hj as [(_ & Hj) | (-> & <-)]; eauto.
    + intros a b va vb Hab Ha Hb Hb'.
      apply lookup_snoc_Some in Ha as [(_ & Ha) | (-> & <-)];
      apply lookup_snoc_Some in Hb as [(_ & Hb) | (-> & <-)].
      * exact (Hord a b va vb Hab Ha Hb Hb').
      * simpl in Hb'. congruence.
      * apply lookup_lt_Some in Hb. lia.
      * lia.
  - destruct (invs s !! i) as [v|] eqn:Hi; [|discriminate].
    destruct (lphase_eqb (lph v) LWaiting) eqn:Hw; [|discriminate].
    destruct (lock_settled _ _ _) eqn:Hset; [|discriminate].
    simpl in Hstep. injection Hstep as <-. apply lphase_eqb_true in Hw.
    rewrite (Hp i v Hi) in Hset. apply settled_chain in Hset; [|exact Hp].
    destruct Hset as (_ & Hall).
    split; [|split]; simpl.
    + by rewrite length_insert.
    + eapply prevs_set; eauto.
    + apply lock_ordered_set; auto; [congruence|].
      intros _ a va Ha Hla. destruct (Hall a Ha) as (w & Hw' & Hr). congruence.
  - destruct (invs s !! i) as [v|] eqn:Hi; [|discriminate].
    destruct (lphase_eqb (lph v) Holding) eqn:Hh; [|discriminate].
    apply lphase_eqb_true in Hh.
    destruct (releases (inv_kind v) p) as [[|]|]; [| |discriminate];
      injection Hstep as <-; (split; [|split]); simpl;
      [by rewrite length_insert | eapply prevs_set; eauto
      | apply lock_ordered_set; auto; congruence
      | by rewrite length_insert | eapply prevs_set; eauto
      | apply lock_ordered_set; auto; congruence].
Qed.

Lemma lrun_inv s evs s' : lock_inv s -> lrun s evs = Some s' -> lock_inv s'.
Proof.
  revert s. induction evs as [|e evs IH]; simpl; intros s Hinv Hrun.
  - congruence.
  - destruct (lstep s e) as [s1|] eqn:Hs; [|discriminate].
    apply (IH s1); [eapply lstep_inv; eauto | exact Hrun].
Qed.

End RunLockFacts.

Module SyncFacts.
Import Sync.

Lemma set_add_elem d x acc : d ∈ set_add x acc <-> d = x \/ d ∈ acc.
Proof.
  unfold set_add. case_bool_decide as Hx.
  - split; [by right|]. intros [->|H]; done.
  - rewrite elem_of_app, list_elem_of_singleton. tauto.
Qed.

Lemma climb_elem fuel root p acc d :
  length p < fuel ->
  d ∈ climb fuel root (root ++ p) acc <->
  d ∈ acc \/ exists j, 1 <= j <= length p /\ d = root ++ take j p.
Proof.
  revert p acc. induction fuel as [|f IH]; intros p acc Hlen; [lia|].
  simpl. destruct p as [|x p'] eqn:Hp.
  - rewrite app_nil_r, bool_decide_eq_true_2 by reflexivity. simpl.
    split; [by left|]. intros [H|(j & Hj & _)]; [exact H|simpl in Hj; lia].
  - rewrite <- Hp.
    assert (Hne : root ++ p <> root).
    { intros H. apply (f_equal length) in H. rewrite length_app in H. subst p. simpl in H. lia. }
    assert (Hne' : root ++ p <> []).
    { intros H. apply app_eq_nil in H as [_ ->]. discriminate. }
    rewrite (bool_decide_eq_false_2 _ Hne), (bool_decide_eq_false_2 _ Hne'). simpl.
    unfold posix_dirname. rewrite removelast_app by (subst p; discriminate).
    rewrite IH by (rewrite removelast_firstn_len, length_take; subst p; simpl in *; lia).
    rewrite set_add_elem, removelast_firstn_len, length_take.
    split.
    + intros [[->|H]|(j & Hj & ->)].
      * right. exists (length p). split; [subst p; simpl; lia|]. by rewrite take_ge.
      * by left.
      * right. exists j. split; [lia|]. rewrite take_take. f_equal. f_equal. lia.
    + intros [H|(j & Hj & ->)]; [by left; right|].
      destruct (decide (j = length p)) as [->|Hj'].
      * left; left. by rewrite take_ge.
      * right. exists j. split; [lia|]. rewrite take_take. f_equal. f_equal. lia.
Qed.

Lemma collect_elem root files acc d :
  (forall rel, rel ∈ files -> rel <> []) ->
  d ∈ fold_left
    (fun acc relativePath =>
       let devicePath := posix_join root relativePath in
       let deviceDir := posix_dirname devicePath in
       if negb (bool_decide (deviceDir = root))
       then climb (S (length deviceDir)) root deviceDir acc
       else acc)
    files acc <->
  d ∈ acc \/ exists rel, rel ∈ files /\ exists j, 1 <= j < length rel /\ d = root ++ take j rel.
Proof.
  revert acc. induction files as [|rel files IH]; intros acc Hfiles; cbn [fold_left].
  - split; [by left|]. intros [H|(rel & Hrel & _)]; [exact H|]. by apply elem_of_nil in Hrel.
  - rewrite IH by (intros r Hr; apply Hfiles; by right).
    assert (Hrel : rel <> []) by (apply Hfiles; by left).
    unfold posix_dirname, posix_join. rewrite removelast_app by exact Hrel.
    assert (Hlen : length (removelast rel) = length rel - 1)
      by (rewrite removelast_firstn_len, length_take; lia).
    assert (Htake : forall j, j <= length rel - 1 -> take j (removelast rel) = take j rel)
      by (intros j Hj; rewrite removelast_firstn_len, take_take; f_equal; lia).
    case_bool_decide as Hroot; cbn [negb].
    + apply (f_equal length) in Hroot. rewrite length_app, Hlen in Hroot.
      split.
      * intros [H|(r & Hr & Hj)]; [by left|]. right. exists r. split; [by right|exact Hj].
      * intros [H|(r & Hr & j & Hj & ->)]; [by left|].
        apply elem_of_cons in Hr as [->|Hr]; [lia|].
        right. exists r. split; [exact Hr|eauto].
    + rewrite climb_elem by (rewrite length_app; lia).
      rewrite Hlen. split.
      * intros [[H|(j & Hj & ->)]|(r & Hr & Hj)].
        -- by left.
        -- right. exists rel. split; [by left|]. exists j. split; [lia|]. by rewrite Htake by lia.
        -- right. exists r. split; [by right|exact Hj].
      * intros [H|(r & Hr & j & Hj & ->)]; [by left; left|].
        apply elem_of_cons in Hr as [->|Hr].
        -- left; right. exists j. split; [lia|]. by rewrite Htake by lia.
        -- right. exists r. split; [exact Hr|eauto].
Qed.

Lemma collect_directories_elem root files d :
  (forall rel, rel ∈ files -> rel <> []) ->
  d ∈ collect_directories root files <->
  exists rel, rel ∈ files /\ exists j, 1 <= j < length rel /\ d = root ++ take j rel.
Proof.
  intros Hfiles. unfold collect_directories. rewrite collect_elem by exact Hfiles.
  split; [intros [H|H]; [by apply elem_of_nil in H|exact H]|by right].
Qed.

Definition depth_le (a b : path) : Prop := split_length a <= split_length b.

Lemma insert_by_depth_elem x l d : d ∈ insert_by_depth x l <-> d = x \/ d ∈ l.
Proof.
  induction l as [|y l IH]; simpl.
  - rewrite list_elem_of_singleton. split; [by left|]. intros [H|H]; [exact H|by apply elem_of_nil in H].
  - destruct (split_length y <=? split_length x).
    + rewrite !elem_of_cons, IH. tauto.
    + rewrite !elem_of_cons. tauto.
Qed.

Lemma insert_by_depth_sorted x l :
  StronglySorted depth_le l -> StronglySorted depth_le (insert_by_depth x l).
Proof.
  induction l as [|y l IH]; intros Hs; simpl.
  - repeat constructor.
  - apply StronglySorted_inv in Hs as [Hs Hy].
    destruct (split_length y <=? split_length x) eqn:Hxy.
    + apply Nat.leb_le in Hxy. constructor; [exact (IH Hs)|].
      apply Forall_forall. intros z Hz. apply insert_by_depth_elem in Hz.
      destruct Hz as [->|Hz]; [exact Hxy|].
      rewrite Forall_forall in Hy. by apply Hy.
    + apply Nat.leb_gt in Hxy. constructor; [constructor; assumption|].
      constructor; [unfold depth_le; lia|].
      rewrite Forall_forall in Hy |- *. intros z Hz. specialize (Hy z Hz).
      unfold depth_le in *; lia.
Qed.

Lemma sort_fold_props l acc :
  StronglySorted depth_le acc ->
  StronglySorted depth_le (fold_left (fun acc x => insert_by_depth x acc) l acc) /\
  forall d, d ∈ fold_left (fun acc x => insert_by_depth x acc) l acc <-> d ∈ l \/ d ∈ acc.
Proof.
  revert acc. induction l as [|x l IH]; intros acc Hs; simpl.
  - split; [exact Hs|]. intros d. split; [by right|]. intros [H|H]; [by apply elem_of_nil in H|exact H].
  - destruct (IH (insert_by_depth x acc) (insert_by_depth_sorted x acc Hs)) as [Hs' Hm].
    split; [exact Hs'|]. intros d. rewrite Hm, insert_by_depth_elem, elem_of_cons. tauto.
Qed.

Lemma sort_by_depth_sorted l : StronglySorted depth_le (sort_by_depth l).
Proof. apply sort_fold_props. constructor. Qed.

Lemma sort_by_depth_elem l d : d ∈ sort_by_depth l <-> d ∈ l.
Proof.
  unfold sort_by_depth. rewrite (proj2 (sort_fold_props l [] (SSorted_nil _))).
  split; [intros [H|H]; [exact H|by apply elem_of_nil in H]|by left].
Qed.

Lemma strongly_sorted_lookup {A} (R : A -> A -> Prop) l i j a b :
  StronglySorted R l -> i < j -> l !! i = Some a -> l !! j = Some b -> R a b.
Proof.
  revert i j. induction l as [|x l IH]; intros i j Hs Hij Ha Hb; [done|].
  apply StronglySorted_inv in Hs as [Hs Hx].
  destruct i as [|i], j as [|j]; simpl in Ha, Hb; try lia.
  - injection Ha as <-. rewrite Forall_forall in Hx. apply Hx.
    by apply list_elem_of_lookup_2 in Hb.
  - apply (IH i j); auto. lia.
Qed.

Lemma upload_files_shape root ok files :
  Forall (fun a => exists r p, a = Upload r p) (fst (upload_files root ok files)) /\
  snd (upload_files root ok files) = forallb ok files.
Proof.
  induction files as [|rel files [IHf IHs]]; simpl; [split; [constructor|reflexivity]|].
  destruct (ok rel).
  - destruct (upload_files root ok files) as [acts b]. simpl in *.
    split; [constructor; eauto|exact IHs].
  - simpl. split; [constructor; eauto|reflexivity].
Qed.

End SyncFacts.

(* ================================================================== *)
(** * Claims about the coordinator queue *)

Module OpQueueClaims.
Import OpQueue OpQueueFacts OpQueueDrain.

(** C1 (as stated, refuted): two callers of [withAutoSuspend] with
    auto-suspend enabled and the default [preempt] can have their work
    closures in flight at the same time: the second call resets
    [opQueue] to [Promise.resolve()] and does not wait for the first. *)
Lemma C1_overlap_counterexample :
  ~ (forall evs s, forallb auto_suspend_event evs = true ->
       run init evs = Some s -> in_flight s <= 1).
Proof.
  intros H.
  pose proof (H [Call true true; Start 0; EnterWork 0; Call true true; Start 1; EnterWork 1]
                _ eq_refl eq_refl) as Hc.
  vm_compute in Hc. lia.
Qed.

(** C1 (amended): when every caller passes [preempt: false] with
    auto-suspend enabled and [skipIdleOnce] is never set, each body is
    chained after the previous one and at most one work closure is in
    flight at any time, however the calls interleave. *)
Theorem C1_serial_without_preempt evs s :
  forallb serial_event evs = true -> run init evs = Some s -> in_flight s <= 1.
Proof.
  intros Hall Hrun. apply chain_in_flight.
  exact (run_chain init evs s chain_inv_init Hall Hrun).
Qed.

Lemma C1_serial_without_preempt_witness :
  exists s, run init [Call true false; Call true false; Start 0; EnterWork 0] = Some s /\
            in_flight s <= 1.
Proof.
  eexists. split; [reflexivity|].
  apply (C1_serial_without_preempt [Call true false; Call true false; Start 0; EnterWork 0]);
    reflexivity.
Defined.

(** C2 (as stated, refuted): after X and Y are queued and Z is queued
    with [preempt: true] before X starts, X still runs: its continuation
    stays chained and nothing cancels it (here it even runs alongside Z). *)
Lemma C2_no_cancellation_counterexample :
  ~ (forall evs s, run init ([Call true false; Call true false; Call true true] ++ evs) = Some s ->
       forall o, ops s !! 0 = Some o -> op_phase o = Waiting).
Proof.
  intros H.
  pose proof (H [Start 2; EnterWork 2; Start 0; EnterWork 0] _ eq_refl _ eq_refl) as Hc.
  vm_compute in Hc. discriminate.
Qed.

(** C2 (amended): a preempting call does not wait for earlier bodies, its
    body can start at once; but the bodies already queued are not
    cancelled: from the state after the call there is a schedule that
    runs every queued body, the preempting one included, to completion. *)
Theorem C2_preempt_starts_at_once_without_cancelling evs s s' :
  run init evs = Some s -> skipIdleOnce s = false -> step s (Call true true) = Some s' ->
  step s' (Start (length (ops s))) <> None /\
  exists evs' s'', run s' evs' = Some s'' /\ length (ops s'') = length (ops s') /\
    forall i o, ops s'' !! i = Some o -> op_phase o = Finished.
Proof.
  intros Hrun Hsk Hstep. split.
  - simpl in Hstep. rewrite Hsk in Hstep. injection Hstep as <-.
    simpl. rewrite (list_lookup_middle (ops s) [] _ (length (ops s))) by reflexivity.
    discriminate.
  - apply drain. eapply step_back; [|exact Hstep].
    exact (run_back init evs s back_inv_init Hrun).
Qed.

Lemma C2_preempt_starts_at_once_without_cancelling_witness :
  exists s s', run init [Call true false; Call true false] = Some s /\
    step s (Call true true) = Some s' /\ step s' (Start 2) <> None.
Proof.
  do 2 eexists. split; [reflexivity|]. split; [reflexivity|].
  exact (proj1 (C2_preempt_starts_at_once_without_cancelling
                  [Call true false; Call true false] _ _ eq_refl eq_refl eq_refl)).
Defined.

End OpQueueClaims.

(* ================================================================== *)
(** * Claims about suspending and restoring the serial sessions *)

Module SessClaims.
Import Sess SessFacts Scenarios.

(** C3: whatever the restore step does, including throwing, the call
    settles with the outcome of [fn]: the same value or the same error
    [fn] gives when it runs after the suspend and idle steps (or at once
    on the bypass path). *)
Theorem C3_outcome_of_fn_propagated {A} (enabled skipIdleOnce : bool)
    (restore : AutoSuspendSnapshot -> M unit) (fn : M A) (s : sess) :
  fst (withAutoSuspend_with enabled skipIdleOnce restore fn s) =
  fst (fn (if negb enabled || skipIdleOnce then s
           else snd (ensureIdle (snd (suspendSerialSessionsForAutoSync s))))).
Proof.
  unfold withAutoSuspend_with.
  destruct (negb enabled || skipIdleOnce).
  - unfold try_finally. destruct (fn s) as [r s1]. reflexivity.
  - unfold bindM at 1.
    pose proof (suspend_snapshot s) as Hs.
    destruct (suspendSerialSessionsForAutoSync s) as [r1 s1]. simpl in Hs. subst r1.
    unfold try_finally, bindM.
    pose proof (ensureIdle_resolves s1) as Hi.
    destruct (ensureIdle s1) as [r2 s2] eqn:E2. simpl in Hi. subst r2. simpl.
    rewrite E2. simpl.
    destruct (fn s2) as [r3 s3] eqn:E3. simpl.
    unfold try_catch. destruct (restore _ s3) as [[[]|e] s4]; reflexivity.
Qed.

(** C4 (as stated, refuted): with the run terminal still open on a
    remembered run command, [openReplEmpty] does not bring the REPL back:
    the restore step replays the run command instead. *)
Lemma C4_repl_not_reopened_counterexample :
  ~ (forall A (fn : M A) s, replTerminal s = Some true ->
       replTerminal (snd (withAutoSuspend true false None openReplEmpty fn s)) = Some true).
Proof.
  intros H.
  pose proof (H unit (throw "boom"%string) run_then_repl ltac:(vm_compute; reflexivity)) as Hc.
  vm_compute in Hc. discriminate.
Qed.

(** C4 (amended): with auto-suspend enabled and [openReplEmpty], a REPL
    open at suspend time is open again after the call, even if [fn]
    threw, provided no run terminal was open with a remembered run
    command at suspend time, and at restore time the user has not closed
    the REPL, a specific port is selected and the interpreter is found. *)
Theorem C4_openReplEmpty_reopens {A} (fn : M A) (resume : option string) (s : sess) :
  replTerminal s = Some true ->
  (run_alive s = false \/ lastRunCommand s = None) ->
  userClosedRepl (snd (fn (snd (ensureIdle (snd (suspendSerialSessionsForAutoSync s)))))) = false ->
  connect_selected (connect (snd (fn (snd (ensureIdle (snd (suspendSerialSessionsForAutoSync s))))))) = true ->
  pythonPath (snd (fn (snd (ensureIdle (snd (suspendSerialSessionsForAutoSync s)))))) <> None ->
  replTerminal (snd (withAutoSuspend true false resume openReplEmpty fn s)) = Some true.
Proof.
  intros Hrepl Hrun Huc Hsel Hpy.
  unfold withAutoSuspend. rewrite withAutoSuspend_queued_state.
  apply restore_openReplEmpty_reopens; simpl; auto.
  - destruct Hrun as [-> | ->]; [by left|]. right. by destruct (run_alive s).
  - unfold repl_alive. by rewrite Hrepl.
Qed.

Lemma C4_openReplEmpty_reopens_witness :
  replTerminal (snd (withAutoSuspend true false None openReplEmpty
                       (throw "boom"%string : M unit) repl_only)) = Some true.
Proof.
  apply C4_openReplEmpty_reopens.
  - vm_compute. reflexivity.
  - left. vm_compute. reflexivity.
  - vm_compute. reflexivity.
  - vm_compute. reflexivity.
  - vm_compute. discriminate.
Defined.

(** C5: when the snapshot says the run terminal was open with a
    remembered command, the restore step closes the REPL if it is open,
    interrupts a run terminal it reuses (or creates one), sends exactly
    the remembered command, and leaves the REPL closed, whatever the
    snapshot says about the REPL. *)
Theorem C5_replays_remembered_command snapshot resume behavior info s :
  runWasOpen snapshot = true -> snapLastRun snapshot = Some info ->
  fst (restoreSerialSessionsFromSnapshot snapshot resume behavior s) = Resolved tt /\
  log (snd (restoreSerialSessionsFromSnapshot snapshot resume behavior s)) =
    log s ++ (if repl_alive s then [Dispose ReplT] else []) ++
    (if run_alive s then [Send RunT ctrl_c] else [Create RunT]) ++
    [Send RunT (cmd info)] /\
  runTerminal (snd (restoreSerialSessionsFromSnapshot snapshot resume behavior s)) = Some true /\
  replTerminal (snd (restoreSerialSessionsFromSnapshot snapshot resume behavior s)) <> Some true.
Proof.
  intros Hrun Hlast. unfold restoreSerialSessionsFromSnapshot. rewrite Hrun, Hlast.
  destruct (rerun_effect info s) as (H1 & H2 & H3 & H4).
  split; [exact H1|]. split; [exact H2|]. split; [exact H3|].
  rewrite H4. unfold repl_alive. destruct (replTerminal s) as [[|]|]; congruence.
Qed.

Lemma C5_replays_remembered_command_witness :
  runTerminal (snd (restoreSerialSessionsFromSnapshot
     (mkSnap true true (Some (mkLastRun "/dev/ttyUSB0" "main.py" "run main.py")))
     None openReplEmpty repl_only)) = Some true.
Proof.
  refine (proj1 (proj2 (proj2 (C5_replays_remembered_command _ _ _
            (mkLastRun "/dev/ttyUSB0" "main.py" "run main.py") _ _ _)))); reflexivity.
Defined.

(** C8 (as stated, refuted): in strict mode two transient failures of the
    handshake do not reach the caller: the handshake breaks out of its
    loop and the REPL terminal is opened. *)
Lemma C8_second_failure_not_raised_counterexample :
  ~ (forall s e1 e2 rest,
       transient_message e1 = true -> transient_message e2 = true ->
       device_results s = Rejected e1 :: Rejected e2 :: rest ->
       exists e, fst (openReplTerminal true true s) = Rejected e).
Proof.
  intros H.
  destruct (H flaky_board device_not_configured device_not_configured []
              ltac:(vm_compute; reflexivity) ltac:(vm_compute; reflexivity) eq_refl) as [e He].
  vm_compute in He. discriminate.
Qed.

(** C8 (amended): [strictConnectHandshake] never raises and resets the
    board at most twice (two reset-and-list attempts, the second after
    any failure of the first, then [break]); so [openReplTerminal] in
    strict mode makes one attempt, the handshake followed by
    [getReplTerminal], whose errors are raised at once. *)
Theorem C8_strict_handshake_best_effort (interrupt : bool) (s : sess) :
  fst (strictConnectHandshake interrupt s) = Resolved tt /\
  (exists new, log (snd (strictConnectHandshake interrupt s)) = log s ++ new /\
     length (List.filter is_reset new) <= 2) /\
  openReplTerminal interrupt true s = getReplTerminal (snd (strictConnectHandshake interrupt s)).
Proof.
  split; [apply handshake_resolves|]. split; [apply handshake_resets|].
  apply openRepl_strict.
Qed.

(** C9: once the user closed the REPL ([userClosedRepl] is set), the
    restore step brings up no REPL, whatever the snapshot; closing sets
    the flag when user-initiated and keeps it otherwise, and opening a new
    REPL terminal clears it. *)
Theorem C9_user_closed_repl_not_reopened snapshot resume behavior s :
  userClosedRepl s = true ->
  (exists new,
     log (snd (restoreSerialSessionsFromSnapshot snapshot resume behavior s)) = log s ++ new /\
     forallb (fun ev => negb (repl_opening ev)) new = true /\
     (replTerminal (snd (restoreSerialSessionsFromSnapshot snapshot resume behavior s)) = Some true ->
      replTerminal s = Some true)) /\
  (forall u s1, userClosedRepl (snd (closeReplTerminal u s1)) = u || userClosedRepl s1) /\
  (forall s1, replTerminal s1 <> Some true -> fst (getReplTerminal s1) = Resolved tt ->
     replTerminal (snd (getReplTerminal s1)) = Some true /\
     userClosedRepl (snd (getReplTerminal s1)) = false).
Proof.
  intros Huc. split; [exact (restore_user_closed snapshot resume behavior s Huc)|]. split.
  - intros u s1. unfold closeReplTerminal. destruct (replTerminal s1); reflexivity.
  - intros s1 Hno. unfold getReplTerminal.
    destruct (replTerminal s1) as [[|]|]; [congruence| |];
      (destruct (negb (connect_selected (connect (set_repl s1 None)))); [discriminate|]);
      destruct (buildShellCommand _ _) as [[c|e] s2]; simpl; auto; discriminate.
Qed.

Lemma C9_user_closed_repl_not_reopened_witness :
  exists new,
    log (snd (restoreSerialSessionsFromSnapshot (mkSnap false true None) None openReplEmpty
                user_closed)) = log user_closed ++ new /\
    forallb (fun ev => negb (repl_opening ev)) new = true.
Proof.
  destruct (proj1 (C9_user_closed_repl_not_reopened (mkSnap false true None) None openReplEmpty
                     user_closed ltac:(vm_compute; reflexivity))) as (new & H1 & H2 & _).
  exists new. split; [exact H1|exact H2].
Defined.

End SessClaims.

(* ================================================================== *)
(** * Claims about the baseline sync *)

Module SyncClaims.
Import Sync SyncFacts.

(** C6: for a normalized absolute device root and manifest keys that
    name files (non-empty paths), the directory pass issues one [mkdir]
    per ancestor directory of an uploaded file strictly below the root
    (and nothing else), in ascending [split('/').length] order, hence
    every parent before its descendants, and all of them before the
    first upload. *)
Theorem C6_directories_before_uploads (rootPath : path) (files : list path)
    (upload_ok : path -> bool) :
  Forall (fun rel => rel <> []) files ->
  exists ups,
    upload_pass rootPath files upload_ok =
      (map Mkdir (sort_by_depth (collect_directories rootPath files)) ++ ups,
       forallb upload_ok files) /\
    Forall (fun a => exists rel dev, a = Upload rel dev) ups /\
    (forall d, d ∈ sort_by_depth (collect_directories rootPath files) <->
       exists rel, rel ∈ files /\ exists j, 1 <= j < length rel /\ d = rootPath ++ take j rel) /\
    (forall i j di dj, i < j ->
       sort_by_depth (collect_directories rootPath files) !! i = Some di ->
       sort_by_depth (collect_directories rootPath files) !! j = Some dj ->
       split_length di <= split_length dj) /\
    (forall i j di dj,
       sort_by_depth (collect_directories rootPath files) !! i = Some di ->
       sort_by_depth (collect_directories rootPath files) !! j = Some dj ->
       di `prefix_of` dj -> di <> dj -> i < j).
Proof.
  intros Hne. rewrite Forall_forall in Hne.
  set (dirs := sort_by_depth (collect_directories rootPath files)).
  assert (Hmem : forall d, d ∈ dirs <->
            exists rel, rel ∈ files /\ exists j, 1 <= j < length rel /\ d = rootPath ++ take j rel).
  { intros d. unfold dirs. rewrite sort_by_depth_elem. by apply collect_directories_elem. }
  assert (Hsort : forall i j di dj, i < j -> dirs !! i = Some di -> dirs !! j = Some dj ->
                    split_length di <= split_length dj).
  { intros i j di dj Hij Hi Hj.
    exact (strongly_sorted_lookup depth_le dirs i j di dj (sort_by_depth_sorted _) Hij Hi Hj). }
  destruct (upload_files_shape rootPath upload_ok files) as [Hups Hok].
  exists (fst (upload_files rootPath upload_ok files)). split.
  { unfold upload_pass. fold dirs. rewrite <- Hok.
    destruct (upload_files rootPath upload_ok files); reflexivity. }
  split; [exact Hups|]. split; [exact Hmem|]. split; [exact Hsort|].
  intros i j di dj Hi Hj [k ->] Hneq.
  assert (Hdi : di <> []).
  { apply list_elem_of_lookup_2, Hmem in Hi as (rel & _ & m & Hm & ->).
    intros H. apply (f_equal length) in H. rewrite length_app, length_take in H. simpl in H. lia. }
  assert (Hk : k <> []) by (intros ->; apply Hneq; by rewrite app_nil_r).
  assert (Hlt : split_length di < split_length (di ++ k)).
  { destruct di as [|x di]; [congruence|]. destruct k as [|y k]; [congruence|].
    simpl. rewrite length_app. simpl. lia. }
  destruct (Nat.lt_trichotomy i j) as [Hij|[->|Hij]]; [exact Hij| |].
  - rewrite Hi in Hj. injection Hj as Hj. exfalso. exact (Hneq Hj).
  - pose proof (Hsort j i _ _ Hij Hj Hi). lia.
Qed.

Lemma C6_directories_before_uploads_witness :
  exists ups,
    upload_pass [] [["a"; "b"; "c.py"]; ["main.py"]]%string (fun _ => true) =
      (map Mkdir [["a"]; ["a"; "b"]]%string ++ ups, true).
Proof.
  destruct (C6_directories_before_uploads [] [["a"; "b"; "c.py"]; ["main.py"]]%string
              (fun _ => true) ltac:(repeat constructor; discriminate)) as (ups & Heq & _).
  exists ups. exact Heq.
Defined.

(** C7 (as stated, refuted): when the folder is not yet initialized, the
    user-confirmed initialization saves an initial manifest before any
    upload, so a failed upload leaves a manifest where there was none. *)
Lemma C7_initial_manifest_kept_counterexample :
  ~ (forall (store : option (list path)) ws_open initialize initialManifest man rootPath upload_ok,
       forallb upload_ok man = false ->
       fst (syncBaseline id store ws_open initialize initialManifest man rootPath upload_ok) = store).
Proof.
  intros H.
  specialize (H None true true [] [["main.py"]]%string [] (fun _ => false) eq_refl).
  vm_compute in H. discriminate.
Qed.

(** C7 (amended): an existing baseline manifest is overwritten with the
    fresh one only when every upload succeeded and is left unchanged when
    one throws; with no baseline, the user-confirmed initialization first
    writes an initial manifest, which stays when an upload throws and is
    replaced by the fresh one when all succeed. *)
Theorem C7_manifest_saved_after_uploads {Manifest} (manifest_files : Manifest -> list path)
    store ws_open initialize (initialManifest man : Manifest) rootPath upload_ok :
  fst (syncBaseline manifest_files store ws_open initialize initialManifest man rootPath upload_ok) =
  match store with
  | Some m => if ws_open && forallb upload_ok (manifest_files man) then Some man else Some m
  | None =>
      if ws_open && initialize then
        if forallb upload_ok (manifest_files man) then Some man else Some initialManifest
      else None
  end.
Proof.
  unfold syncBaseline. destruct ws_open; simpl; [|by destruct store].
  assert (Hp : forall store1 : option Manifest,
     fst (match manifest_files man with
          | [] => (Some man, [])
          | _ :: _ =>
              let (acts, ok) := upload_pass rootPath (manifest_files man) upload_ok in
              if ok then (Some man, acts) else (store1, acts)
          end) = if forallb upload_ok (manifest_files man) then Some man else store1).
  { intros store1. destruct (manifest_files man) as [|f fs] eqn:Hf; [reflexivity|].
    rewrite <- Hf. unfold upload_pass.
    destruct (upload_files_shape rootPath upload_ok (manifest_files man)) as [_ Hok].
    destruct (upload_files rootPath upload_ok (manifest_files man)) as [ups ok].
    simpl in Hok. subst ok. by destruct (forallb _ _). }
  destruct store as [m|]; [apply Hp|].
  destruct initialize; [apply Hp|reflexivity].
Qed.

End SyncClaims.

(* ================================================================== *)
(** * Claim about the lock of [MpRemoteManager.run] *)

Module RunLockClaims.
Import RunLock RunLockFacts.

(** C10: in every reachable state of the [run]/[spawn] lock, an
    invocation past [await prev] found every earlier invocation released
    (so at most one holds the lock); a [run] holding the lock releases it
    on each of its exit paths (the exec callback after success or
    failure, and a synchronous throw of [exec]); and a waiting
    invocation whose predecessors all released can take the lock. *)
Theorem C10_run_lock_released evs s :
  lrun init evs = Some s ->
  (forall i j vi vj, i < j -> invs s !! i = Some vi -> invs s !! j = Some vj ->
     lph vj <> LWaiting -> lph vi = Released) /\
  (forall i v p, invs s !! i = Some v -> inv_kind v = RunCall -> lph v = Holding ->
     releases RunCall p <> None ->
     exists s', lstep s (Exit i p) = Some s' /\ lphase_of s' i = Some Released) /\
  (forall i v, invs s !! i = Some v -> lph v = LWaiting ->
     (forall j w, j < i -> invs s !! j = Some w -> lph w = Released) ->
     exists s', lstep s (Acquire i) = Some s' /\ lphase_of s' i = Some Holding).
Proof.
  intros Hrun.
  destruct (lrun_inv init evs s lock_inv_init Hrun) as (Hq & Hp & Hord).
  split; [exact Hord|]. split.
  - intros i v p Hi Hk Hh Hrel. simpl. rewrite Hi, Hh, Hk. simpl.
    assert (Hlt : i < length (invs s)) by (eapply lookup_lt_Some; eauto).
    destruct p as [b| | |]; simpl in Hrel |- *; try congruence;
      eexists; (split; [reflexivity|]); unfold lphase_of; simpl;
      by rewrite list_lookup_insert_eq.
  - intros i v Hi Hw Hall. simpl. rewrite Hi, Hw. simpl.
    assert (Hlt : i < length (invs s)) by (eapply lookup_lt_Some; eauto).
    rewrite (Hp i v Hi).
    assert (Hset : lock_settled (length (invs s)) (invs s) (OpQueue.chain_pred i) = true).
    { apply settled_chain; [exact Hp|]. split; [lia|].
      intros j Hj. destruct (lookup_lt_is_Some_2 (invs s) j ltac:(lia)) as [w Hw'].
      exists w. split; [exact Hw'|]. exact (Hall j w Hj Hw'). }
    rewrite Hset. eexists. split; [reflexivity|]. unfold lphase_of; simpl.
    by rewrite list_lookup_insert_eq.
Qed.

Lemma C10_run_lock_released_witness :
  exists s, lrun init [Issue RunCall; Issue SpawnCall; Acquire 0] = Some s /\
    exists s', lstep s (Exit 0 ExecThrows) = Some s' /\ lphase_of s' 0 = Some Released.
Proof.
  eexists. split; [reflexivity|].
  apply (proj1 (proj2 (C10_run_lock_released [Issue RunCall; Issue SpawnCall; Acquire 0] _ eq_refl))
           0 (mkInv RunCall None Holding)); try reflexivity; discriminate.
Defined.

End RunLockClaims.

(* ------------------------------------------------------------------ *)
(** ** Further properties of the session, path, queue, lock and sync code *)


Module SessExtras.
Import Sess SessFacts.
Local Open Scope string_scope.

Lemma repl_keys_only port s :
  repl_alive s = true ->
  robustInterrupt port s =
    (Resolved tt, add_log (add_log s (Send ReplT ctrl_c)) (Send ReplT ctrl_c)) /\
  robustInterruptAndReset port s =
    (Resolved tt, add_log (add_log (add_log s (Send ReplT ctrl_c)) (Send ReplT ctrl_c))
                    (Send ReplT ctrl_d)) /\
  softReset s =
    (Resolved tt, add_log (add_log (add_log s (Send ReplT ctrl_c)) (Send ReplT ctrl_b))
                    (Send ReplT ctrl_d)).
Proof.
  destruct s as [rt pt uc lr cn py dr lg]. unfold repl_alive; simpl.
  destruct pt as [[|]|]; [|discriminate..]. intros _.
  repeat split.
Qed.


Lemma port_given_some p : p <> "" -> port_given (Some p) = Some p.
Proof. intros Hp. simpl. apply String.eqb_neq in Hp. by rewrite Hp. Qed.

(** Without a REPL, [robustInterrupt] on a given port rejects exactly when
    both the echo and the mpremote fallback fail (the health check's
    result is ignored), with both errors in the message. *)
Theorem robustInterrupt_outcome p s :
  repl_alive s = false -> p <> "" ->
  fst (robustInterrupt (Some p) s) =
    match nth_error (device_results s) 1, nth_error (device_results s) 2 with
    | Some (Rejected e1), Some (Rejected e2) =>
        Rejected ("Failed to interrupt device on " ++ p ++ ": echo error: " ++ e1 ++
                  ", mpremote error: " ++ e2)
    | _, _ => Resolved tt
    end.
Proof.
  intros Hr Hp. pose proof (port_given_some p Hp) as Hg.
  destruct s as [rt pt uc lr cn py dr lg]. unfold repl_alive in Hr; simpl in Hr.
  unfold robustInterrupt, robust_port. 
  assert (Ho : isReplOpen (mkSess rt pt uc lr cn py dr lg) = (Resolved false, mkSess rt pt uc lr cn py dr lg)).
  { unfold isReplOpen, gets; simpl. by destruct pt as [[|]|]. }
  unfold bindM at 1. rewrite Ho, Hg. simpl.
  destruct dr as [|r0 [|r1 [|r2 rest]]];
    repeat match goal with r : outcome unit |- _ => destruct r as [[]|] end;
    reflexivity.
Qed.


Ltac find_in :=
  match goal with
  | |- _ \/ _ => first [left; find_in | right; find_in]
  | |- _ = _ => reflexivity
  end.

Ltac not_in := let Hin := fresh in
  intros Hin; apply list_elem_of_In in Hin; simpl in Hin; intuition congruence.

Ltac in_log := apply list_elem_of_In; repeat rewrite in_app_iff; simpl; find_in.


Lemma no_port_refused port s :
  repl_alive s = false -> port_given port = None -> connect_selected (connect s) = false ->
  robustInterrupt port s = (Rejected "Select a specific serial port first (not 'auto').", s) /\
  robustInterruptAndReset port s = (Rejected "Select a specific serial port first (not 'auto').", s).
Proof.
  intros Hr Hg Hc.
  destruct s as [rt pt uc lr cn py dr lg]; unfold repl_alive in Hr; simpl in *.
  unfold robustInterrupt, robustInterruptAndReset, robust_port, bindM, isReplOpen, gets, mret'.
  simpl. rewrite Hg. simpl. destruct pt as [[|]|]; try discriminate; simpl; rewrite Hc; simpl; split; reflexivity.
Qed.

(** Without a port argument, a REPL or a selected port, [robustInterrupt]
    and [robustInterruptAndReset] reject before any device call and
    change nothing. *)
Theorem robust_no_port_refused port s :
  repl_alive s = false -> port_given port = None -> connect_selected (connect s) = false ->
  robustInterrupt port s = (Rejected "Select a specific serial port first (not 'auto').", s) /\
  robustInterruptAndReset port s = (Rejected "Select a specific serial port first (not 'auto').", s).
Proof. exact (no_port_refused port s). Qed.

(** Without a REPL, [robustInterruptAndReset] on a given port always
    attempts the soft reset, even when both interrupt attempts failed; it
    rejects exactly when both reset attempts (echo, then mpremote) fail. *)
Theorem robustInterruptAndReset_always_resets p s :
  repl_alive s = false -> p <> "" ->
  Device (echo_reset_cmd p) ∈ log (snd (robustInterruptAndReset (Some p) s)) /\
  fst (robustInterruptAndReset (Some p) s) =
    let k := match nth_error (device_results s) 1 with Some (Rejected _) => 3 | _ => 2 end in
    match nth_error (device_results s) k, nth_error (device_results s) (S k) with
    | Some (Rejected e1), Some (Rejected e2) =>
        Rejected ("Failed to reset device on " ++ p ++ ": echo error: " ++ e1 ++
                  ", mpremote error: " ++ e2)
    | _, _ => Resolved tt
    end.
Proof.
  intros Hr Hp. apply String.eqb_neq in Hp.
  destruct s as [rt pt uc lr cn py dr lg]; unfold repl_alive in Hr; simpl in Hr.
  destruct pt as [[|]|]; try discriminate;
  unfold robustInterruptAndReset, robust_port, port_given, bindM, isReplOpen, gets, mret',
    try_catch, health_check, exec_sh, mpremote_run, device_call, throw;
  simpl; rewrite Hp; simpl;
  destruct dr as [|r0 [|r1 [|r2 [|r3 [|r4 rest]]]]];
    repeat match goal with r : outcome unit |- _ => destruct r as [[]|] end;
    cbn; (split; [in_log | reflexivity]).
Qed.




(** [stop] never rejects: through a live REPL it types Ctrl-C twice and
    Ctrl-D; otherwise, with a port selected, it attempts the echo reset on
    that port; with neither, it does nothing at all. *)
Theorem stop_effect s :
  fst (stop s) = Resolved tt /\
  (repl_alive s = true ->
   snd (stop s) = add_log (add_log (add_log s (Send ReplT ctrl_c)) (Send ReplT ctrl_c))
                    (Send ReplT ctrl_d)) /\
  (repl_alive s = false -> connect_selected (connect s) = true ->
   Device (echo_reset_cmd (device_of (connect s))) ∈ log (snd (stop s))) /\
  (repl_alive s = false -> connect_selected (connect s) = false -> stop s = (Resolved tt, s)).
Proof.
  split; [apply try_catch_ignore_resolves|]. split; [|split].
  - intros Ha. unfold stop. rewrite try_catch_ignore_state.
    by destruct (repl_keys_only None s Ha) as (_ & -> & _).
  - intros Hr Hc. unfold stop. rewrite try_catch_ignore_state.
    destruct s as [rt pt uc lr cn py dr lg]; unfold repl_alive in Hr; simpl in *.
    destruct pt as [[|]|]; try discriminate;
    unfold robustInterruptAndReset, robust_port, port_given, bindM, isReplOpen, gets, mret',
      try_catch, health_check, exec_sh, mpremote_run, device_call, throw;
    simpl; rewrite Hc; simpl;
    destruct dr as [|r0 [|r1 [|r2 [|r3 [|r4 rest]]]]];
      repeat match goal with r : outcome unit |- _ => destruct r as [[]|] end;
      cbn; in_log.
  - intros Hr Hc. unfold stop.
    destruct (no_port_refused None s Hr eq_refl Hc) as (_ & H).
    unfold try_catch. by rewrite H.
Qed.



(** [suspendSerialSessionsForAutoSync] leaves no terminal alive: it
    interrupts and disposes a live run terminal, detaches (Ctrl-X) and
    disposes a live REPL, and keeps the remembered run command and the
    user-closed flag. *)
Theorem suspend_closes_terminals s :
  let s' := snd (suspendSerialSessionsForAutoSync s) in
  run_alive s' = false /\ repl_alive s' = false /\
  lastRunCommand s' = lastRunCommand s /\ userClosedRepl s' = userClosedRepl s /\
  log s' = (log s ++ (if run_alive s then [Send RunT ctrl_c; Dispose RunT] else []) ++
                     (if repl_alive s then [Send ReplT ctrl_x; Dispose ReplT] else []))%list.
Proof.
  destruct s as [rt pt uc lr cn py dr lg].
  unfold run_alive, repl_alive; simpl.
  destruct rt as [[|]|], pt as [[|]|]; simpl; rewrite <- ?app_assoc, ?app_nil_r;
    repeat split.
Qed.

(** The command line [runActiveFile] sends for [fp]. *)
Lemma runActiveFile_ok fp s py :
  connect_selected (connect s) = true -> pythonPath s = Some py ->
  let c := (dq ++ py ++ dq ++ " -m mpremote " ++
            join_space (map quote_arg ["connect"; device_of (connect s); "run"; fp]))%string in
  let s' := snd (runActiveFile fp s) in
  fst (runActiveFile fp s) = Resolved tt /\
  lastRunCommand s' = Some (mkLastRun (device_of (connect s)) fp c) /\
  run_alive s' = true /\ repl_alive s' = false /\
  userClosedRepl s' = userClosedRepl s /\
  log s' = (log s ++ (if repl_alive s then [Dispose ReplT] else []) ++
                     (if run_alive s then [Send RunT ctrl_c] else [Create RunT]) ++ [Send RunT c])%list.
Proof.
  intros Hc Hpy.
  destruct s as [rt pt uc lr cn py' dr lg]; simpl in *. subst py'.
  unfold runActiveFile, bindM, gets, mret'; simpl. rewrite Hc; simpl.
  unfold run_alive, repl_alive.
  destruct rt as [[|]|], pt as [[|]|]; simpl; rewrite <- ?app_assoc; repeat split.
Qed.

(** [runActiveFile fp] with a port selected and the interpreter found:
    it closes a live REPL, reuses a live run terminal (interrupting it) or
    creates one, sends [python -m mpremote connect <device> run fp] and
    remembers that command line. *)
Theorem runActiveFile_runs fp s py :
  connect_selected (connect s) = true -> pythonPath s = Some py ->
  let c := (dq ++ py ++ dq ++ " -m mpremote " ++
            join_space (map quote_arg ["connect"; device_of (connect s); "run"; fp]))%string in
  let s' := snd (runActiveFile fp s) in
  fst (runActiveFile fp s) = Resolved tt /\
  lastRunCommand s' = Some (mkLastRun (device_of (connect s)) fp c) /\
  run_alive s' = true /\ repl_alive s' = false /\
  log s' = (log s ++ (if repl_alive s then [Dispose ReplT] else []) ++
                     (if run_alive s then [Send RunT ctrl_c] else [Create RunT]) ++ [Send RunT c])%list.
Proof.
  intros Hc Hpy. destruct (runActiveFile_ok fp s py Hc Hpy) as (H1 & H2 & H3 & H4 & _ & H6).
  auto.
Qed.


(** After [runActiveFile fp], any [withAutoSuspend] call with auto-suspend
    on ends with the run terminal alive and the same command line sent to
    it last, whatever its closure does to the session and whether it
    throws. *)
Theorem run_then_withAutoSuspend_replays {A} fp (fn : M A) resume beh s py :
  connect_selected (connect s) = true -> pythonPath s = Some py ->
  let c := (dq ++ py ++ dq ++ " -m mpremote " ++
            join_space (map quote_arg ["connect"; device_of (connect s); "run"; fp]))%string in
  let s2 := snd (withAutoSuspend true false resume beh fn (snd (runActiveFile fp s))) in
  run_alive s2 = true /\ exists pre, log s2 = (pre ++ [Send RunT c])%list.
Proof.
  intros Hc Hpy. destruct (runActiveFile_ok fp s py Hc Hpy) as (_ & Hl & Hr & _).
  set (s1 := snd (runActiveFile fp s)) in *. simpl.
  unfold withAutoSuspend. rewrite withAutoSuspend_queued_state.
  rewrite Hr. unfold restoreSerialSessionsFromSnapshot; simpl. rewrite Hl.
  match goal with |- context [rerunLastRunCommand ?i ?st] =>
    destruct (rerun_effect i st) as (_ & Hlog & Hrun & _) end.
  split.
  - unfold run_alive. by rewrite Hrun.
  - rewrite Hlog. eexists. rewrite !app_assoc. reflexivity.
Qed.


Lemma handshake_keeps s interrupt :
  let s' := snd (strictConnectHandshake interrupt s) in
  replTerminal s' = replTerminal s /\ connect s' = connect s /\ pythonPath s' = pythonPath s.
Proof.
  destruct s as [rt pt uc lr cn py dr lg].
  unfold strictConnectHandshake. destruct interrupt; [|repeat split].
  unfold handshake_attempts, bindM, mret', device_call; cbn.
  destruct dr as [|r0 [|r1 [|r2 [|r3 rest]]]];
    repeat match goal with r : outcome unit |- _ => destruct r as [[]|] end;
    cbn; repeat split.
Qed.

Lemma getReplTerminal_fresh s py :
  replTerminal s <> Some true -> connect_selected (connect s) = true -> pythonPath s = Some py ->
  fst (getReplTerminal s) = Resolved tt /\ repl_alive (snd (getReplTerminal s)) = true /\
  userClosedRepl (snd (getReplTerminal s)) = false.
Proof.
  intros Ht Hc Hpy. destruct s as [rt pt uc lr cn py' dr lg]; simpl in *. subst py'.
  unfold getReplTerminal, buildShellCommand, bindM, gets, mret'; simpl.
  destruct pt as [[|]|]; [congruence| |]; simpl; rewrite Hc; simpl; repeat split.
Qed.

(** Closing the REPL from its own terminal marks it user-closed; opening
    it again (in either mode, with a port selected and the interpreter
    found) brings it back alive and clears the mark. *)
Theorem user_close_then_open s interrupt strict py :
  connect_selected (connect s) = true -> pythonPath s = Some py ->
  let s1 := snd (closeReplTerminal true s) in
  let s2 := snd (openReplTerminal interrupt strict s1) in
  userClosedRepl s1 = true /\ replTerminal s1 = None /\
  fst (openReplTerminal interrupt strict s1) = Resolved tt /\
  repl_alive s2 = true /\ userClosedRepl s2 = false.
Proof.
  intros Hc Hpy.
  assert (H1 : userClosedRepl (snd (closeReplTerminal true s)) = true /\
               replTerminal (snd (closeReplTerminal true s)) = None /\
               connect (snd (closeReplTerminal true s)) = connect s /\
               pythonPath (snd (closeReplTerminal true s)) = pythonPath s).
  { destruct s as [rt pt uc lr cn py' dr lg]; unfold closeReplTerminal; simpl.
    destruct pt; repeat split. }
  set (s1 := snd (closeReplTerminal true s)) in *. simpl.
  destruct H1 as (Hu & Hn & Hc1 & Hp1). split; [exact Hu|]. split; [exact Hn|].
  destruct strict.
  - rewrite openRepl_strict.
    destruct (handshake_keeps s1 interrupt) as (Ht & Hc2 & Hp2).
    apply getReplTerminal_fresh with (py := py); congruence.
  - unfold openReplTerminal, open_repl_attempts, bindM.
    assert (Hpre : forall m : M unit, m = (if interrupt then try_catch (device_call "reset") (fun _ => mret' tt) else mret' tt) ->
              replTerminal (snd (m s1)) = None /\ connect (snd (m s1)) = connect s /\
              pythonPath (snd (m s1)) = Some py /\ fst (m s1) = Resolved tt).
    { intros m ->. destruct s1 as [rt pt uc lr cn py' dr lg]; simpl in *.
      destruct interrupt; unfold try_catch, device_call, mret'; simpl; [|repeat split; congruence].
      destruct dr as [|[[]|e] rest]; simpl; repeat split; congruence. }
    destruct (Hpre _ eq_refl) as (Ht & Hc2 & Hp2 & Hr).
    destruct ((if interrupt then try_catch (device_call "reset") (fun _ => mret' tt) else mret' tt) s1)
      as [r s1'] eqn:E. simpl in *. subst r.
    destruct (getReplTerminal_fresh s1' py) as (G1 & G2 & G3); [congruence..|].
    destruct (getReplTerminal s1') as [r2 s2]. simpl in *. subst r2. auto.
Qed.

(** [normalizeReplBehavior] maps each behavior's own name to it, and
    yields ["none"] for exactly the inputs that are none of the other
    three names or the legacy aliases ["resumeCommand"] and ["softReset"]
    (undefined and null included). *)
Theorem normalizeReplBehavior_spec :
  (forall b, normalizeReplBehavior (Some (behavior_name b)) = b) /\
  (forall raw, normalizeReplBehavior raw = none <->
     forall r, raw = Some r ->
       r ∉ ["runChanged"; "executeBootMain"; "openReplEmpty"; "resumeCommand"; "softReset"]).
Proof.
  split; [intros []; reflexivity|].
  intros [r|]; [|split; [intros _ r' Hr; discriminate | reflexivity]].
  simpl.
  destruct (String.eqb_spec r "runChanged") as [->|N1].
  { split; [discriminate|]. intros H. exfalso. apply (H _ eq_refl). apply list_elem_of_In; simpl; find_in. }
  destruct (String.eqb_spec r "executeBootMain") as [->|N2].
  { split; [discriminate|]. intros H. exfalso. apply (H _ eq_refl). apply list_elem_of_In; simpl; find_in. }
  destruct (String.eqb_spec r "openReplEmpty") as [->|N3].
  { split; [discriminate|]. intros H. exfalso. apply (H _ eq_refl). apply list_elem_of_In; simpl; find_in. }
  destruct (String.eqb_spec r "none") as [->|N4].
  { split; [intros _ r' Hr; injection Hr as <-; not_in | reflexivity]. }
  destruct (String.eqb_spec r "resumeCommand") as [->|N5].
  { split; [discriminate|]. intros H. exfalso. apply (H _ eq_refl). apply list_elem_of_In; simpl; find_in. }
  destruct (String.eqb_spec r "softReset") as [->|N6].
  { split; [discriminate|]. intros H. exfalso. apply (H _ eq_refl). apply list_elem_of_In; simpl; find_in. }
  split; [|reflexivity]. intros _ r' Hr. injection Hr as <-. not_in.
Qed.

Lemma run_replace_dq_id a : run_replace_dq a = a.
Proof.
  induction a as [|c a IH]; [reflexivity|]. simpl. rewrite IH.
  destruct (Ascii.eqb_spec c "034"%char) as [->|]; reflexivity.
Qed.

Lemma escape_dq_id a : has_char "034"%char a = false -> escape_dq a = a.
Proof.
  induction a as [|c a IH]; [reflexivity|]. intros H.
  change (has_char "034"%char (String c a)) with (Ascii.eqb "034"%char c || has_char "034"%char a) in H.
  apply orb_false_iff in H as [Hc Ha].
  change (escape_dq (String c a)) with
    (if Ascii.eqb c "034"%char then String "092"%char (String c (escape_dq a))
     else String c (escape_dq a)).
  rewrite Ascii.eqb_sym, Hc, IH by exact Ha. reflexivity.
Qed.

(** [MpRemoteManager.run]'s quoting leaves double quotes inside an
    argument unescaped ([a.replace(/"/g, '\"')] changes nothing); on
    arguments free of double quotes its command line is exactly the one
    [buildShellCommand] returns for the same interpreter. *)
Theorem run_command_line_vs_buildShellCommand py args s :
  pythonPath s = Some py -> Forall (fun a => has_char "034"%char a = false) args ->
  (forall a, run_quote_arg a = if has_char " "%char a then (dq ++ a ++ dq)%string else a) /\
  buildShellCommand args s = (Resolved (run_command_line py args), s).
Proof.
  intros Hpy Hargs. split.
  { intros a. unfold run_quote_arg. by rewrite run_replace_dq_id. }
  assert (Hm : map quote_arg args = map run_quote_arg args).
  { induction Hargs as [|a l Ha Hl IH]; [reflexivity|]. simpl. rewrite IH.
    unfold quote_arg, run_quote_arg. rewrite run_replace_dq_id, escape_dq_id by exact Ha.
    reflexivity. }
  unfold buildShellCommand, bindM, gets, mret'; simpl. rewrite Hpy. unfold run_command_line.
  rewrite Hm. reflexivity.
Qed.

(** Witnesses: the theorems above applied to concrete sessions. *)


Lemma robustInterrupt_outcome_witness :
  repl_alive (set_results Scenarios.s0 [Resolved tt; Rejected "e1"; Rejected "e2"]) = false /\
  fst (robustInterrupt (Some "/dev/ttyUSB0")
         (set_results Scenarios.s0 [Resolved tt; Rejected "e1"; Rejected "e2"])) =
    Rejected "Failed to interrupt device on /dev/ttyUSB0: echo error: e1, mpremote error: e2".
Proof.
  split; [reflexivity|].
  rewrite (robustInterrupt_outcome "/dev/ttyUSB0"
             (set_results Scenarios.s0 [Resolved tt; Rejected "e1"; Rejected "e2"])
             eq_refl ltac:(discriminate)).
  reflexivity.
Defined.

Lemma robust_no_port_refused_witness :
  let s := mkSess None None false None "auto" (Some "python3") [] [] in
  repl_alive s = false /\ port_given (Some "") = None /\ connect_selected (connect s) = false /\
  robustInterrupt (Some "") s = (Rejected "Select a specific serial port first (not 'auto').", s).
Proof.
  cbv zeta. split; [reflexivity|]. split; [reflexivity|]. split; [reflexivity|].
  exact (proj1 (robust_no_port_refused (Some "")
                  (mkSess None None false None "auto" (Some "python3") [] [])
                  eq_refl eq_refl eq_refl)).
Defined.

Lemma robustInterruptAndReset_always_resets_witness :
  let s := set_results Scenarios.s0 [Resolved tt; Rejected "a"; Rejected "b"; Resolved tt] in
  repl_alive s = false /\
  Device (echo_reset_cmd "/dev/ttyUSB0") ∈ log (snd (robustInterruptAndReset (Some "/dev/ttyUSB0") s)) /\
  fst (robustInterruptAndReset (Some "/dev/ttyUSB0") s) = Resolved tt.
Proof.
  cbv zeta. split; [reflexivity|].
  destruct (robustInterruptAndReset_always_resets "/dev/ttyUSB0"
              (set_results Scenarios.s0 [Resolved tt; Rejected "a"; Rejected "b"; Resolved tt])
              eq_refl ltac:(discriminate)) as [H1 H2].
  split; [exact H1|]. rewrite H2. reflexivity.
Defined.


Lemma runActiveFile_runs_witness :
  connect_selected (connect Scenarios.s0) = true /\ pythonPath Scenarios.s0 = Some "python3" /\
  run_alive (snd (runActiveFile "main.py" Scenarios.s0)) = true.
Proof.
  split; [reflexivity|]. split; [reflexivity|].
  pose proof (runActiveFile_runs "main.py" Scenarios.s0 "python3" eq_refl eq_refl) as H.
  cbv zeta in H. destruct H as (_ & _ & H & _). exact H.
Defined.

Lemma run_then_withAutoSuspend_replays_witness :
  connect_selected (connect Scenarios.s0) = true /\ pythonPath Scenarios.s0 = Some "python3" /\
  run_alive (snd (withAutoSuspend true false None openReplEmpty (throw "x" : M unit)
                    (snd (runActiveFile "main.py" Scenarios.s0)))) = true.
Proof.
  split; [reflexivity|]. split; [reflexivity|].
  pose proof (run_then_withAutoSuspend_replays "main.py" (throw "x" : M unit) None openReplEmpty
                Scenarios.s0 "python3" eq_refl eq_refl) as H.
  cbv zeta in H. exact (proj1 H).
Defined.

Lemma user_close_then_open_witness :
  connect_selected (connect Scenarios.repl_only) = true /\
  pythonPath Scenarios.repl_only = Some "python3" /\
  repl_alive (snd (openReplTerminal true true (snd (closeReplTerminal true Scenarios.repl_only)))) = true.
Proof.
  split; [reflexivity|]. split; [reflexivity|].
  pose proof (user_close_then_open Scenarios.repl_only true true "python3" eq_refl eq_refl) as H.
  cbv zeta in H. destruct H as (_ & _ & _ & H & _). exact H.
Defined.

Lemma run_command_line_vs_buildShellCommand_witness :
  pythonPath Scenarios.s0 = Some "python3" /\
  buildShellCommand ["connect"; "/dev/ttyUSB0"; "run"; "my app.py"] Scenarios.s0 =
    (Resolved (run_command_line "python3" ["connect"; "/dev/ttyUSB0"; "run"; "my app.py"]),
     Scenarios.s0).
Proof.
  split; [reflexivity|].
  refine (proj2 (run_command_line_vs_buildShellCommand "python3"
                   ["connect"; "/dev/ttyUSB0"; "run"; "my app.py"] Scenarios.s0 eq_refl _)).
  repeat constructor.
Defined.

End SessExtras.


Module PathExtras.
Import SyncPaths.
Local Open Scope string_scope.

Lemma string_app_cons c a b : String c a ++ b = String c (a ++ b).
Proof. reflexivity. Qed.

Lemma strip_prefix_app p x : Sess.strip_prefix p (p ++ x) = Some x.
Proof.
  induction p as [|c p IH]; [reflexivity|].
  rewrite string_app_cons. simpl. by rewrite Ascii.eqb_refl.
Qed.

Lemma string_app_assoc a b c : (a ++ b) ++ c = a ++ (b ++ c).
Proof. induction a as [|x a IH]; [reflexivity|]. rewrite !string_app_cons. congruence. Qed.

Lemma strip_trailing_slash_cases r :
  strip_trailing_slash r = r \/ r = strip_trailing_slash r ++ "/".
Proof.
  induction r as [|c r IH]; [left; reflexivity|].
  destruct r as [|d r'].
  - simpl. destruct (Ascii.eqb_spec c "/"%char) as [->|]; [right|left]; reflexivity.
  - change (strip_trailing_slash (String c (String d r'))) with
      (String c (strip_trailing_slash (String d r'))).
    destruct IH as [-> | H]; [left; reflexivity|right].
    rewrite string_app_cons, <- H. reflexivity.
Qed.

(** For a relative path that does not start with a slash, the fallback
    [toDevicePath] of mpremoteCommands.ts followed by [toLocalRelative] of
    syncCommands.ts gives the path back, for every [rootPath] (["/"], with
    or without a trailing slash, or empty). *)
Theorem toLocalRelative_toDevicePath_fallback rel rootPath :
  Sess.strip_prefix "/" rel = None ->
  toLocalRelative (toDevicePath_fallback rel rootPath) rootPath = rel.
Proof.
  intros Hrel.
  assert (Hkeep : Sess.replace_prefix "/" rel = rel) by (unfold Sess.replace_prefix; by rewrite Hrel).
  assert (Hone : forall x y, Sess.replace_prefix x (x ++ y) = y).
  { intros x y. unfold Sess.replace_prefix. by rewrite strip_prefix_app. }
  assert (Hslash : Sess.replace_prefix "/" ("/" ++ rel) = rel) by apply Hone.
  unfold toLocalRelative, toDevicePath_fallback.
  destruct (String.eqb_spec rootPath "/") as [->|Hne].
  { change (String.eqb "/" "/") with true. cbv iota. rewrite Hone. exact Hkeep. }
  destruct (String.eqb_spec (strip_trailing_slash rootPath) "/") as [Hn|Hn];
    destruct (strip_trailing_slash_cases rootPath) as [H|H].
  - congruence.
  - rewrite Hn in H. rewrite H.
    assert (Hn2 : Sess.replace_prefix ("/" ++ "/") ("/" ++ rel) = "/" ++ rel).
    { unfold Sess.replace_prefix.
      change (Sess.strip_prefix ("/" ++ "/") ("/" ++ rel)) with (Sess.strip_prefix "/" rel).
      rewrite Hrel. reflexivity. }
    rewrite Hn2. exact Hslash.
  - rewrite H, Hone. exact Hslash.
  - set (n := strip_trailing_slash rootPath) in *. rewrite H at 1.
    rewrite <- string_app_assoc, Hone. exact Hkeep.
Qed.

Lemma toLocalRelative_toDevicePath_fallback_witness :
  Sess.strip_prefix "/" "lib/util.py" = None /\
  toLocalRelative (toDevicePath_fallback "lib/util.py" "/apps/") "/apps/" = "lib/util.py".
Proof.
  split; [reflexivity|].
  exact (toLocalRelative_toDevicePath_fallback "lib/util.py" "/apps/" eq_refl).
Defined.

End PathExtras.

Module QueueExtras.
Import OpQueue OpQueueFacts.

(** When every caller passes [preempt: false] with auto-suspend enabled,
    the bodies run in call order: a body has left the waiting state only
    when every body queued before it has finished. *)
Theorem serial_bodies_in_call_order evs s i j oi oj :
  forallb serial_event evs = true -> run init evs = Some s -> i < j ->
  ops s !! i = Some oi -> ops s !! j = Some oj -> op_phase oj <> Waiting ->
  op_phase oi = Finished.
Proof.
  intros Hall Hrun Hij Hi Hj Hw.
  destruct (run_chain init evs s chain_inv_init Hall Hrun) as (_ & _ & _ & Hord).
  exact (Hord i j oi oj Hij Hi Hj Hw).
Qed.

Lemma serial_bodies_in_call_order_witness :
  exists s oi,
    run init [Call true false; Call true false; Start 0; EnterWork 0; LeaveWork 0;
              Finish 0; Start 1] = Some s /\
    ops s !! 0 = Some oi /\ op_phase oi = Finished.
Proof.
  eexists; exists (mkOp None Finished). split; [reflexivity|]. split; [reflexivity|].
  refine (serial_bodies_in_call_order
            [Call true false; Call true false; Start 0; EnterWork 0; LeaveWork 0; Finish 0; Start 1]
            _ 0 1 (mkOp None Finished) (mkOp (Some 0) Suspending)
            eq_refl eq_refl _ eq_refl eq_refl _); [lia | discriminate].
Defined.

(** [setSkipIdleOnce] lets exactly one call bypass the queue: the next
    enabled call invokes its body at once, outside the chain, and clears
    the flag, so the call after it is queued again. *)
Theorem skipIdleOnce_bypasses_one_call s p1 p2 :
  exists s', run s [SetSkipIdleOnce; Call true p1; Call true p2] = Some s' /\
    ops s' !! length (ops s) = Some (mkOp None Working) /\
    phase_of s' (S (length (ops s))) = Some Waiting /\
    skipIdleOnce s' = false.
Proof.
  eexists. split; [reflexivity|]. simpl.
  rewrite <- app_assoc. split; [|split; [|reflexivity]].
  - simpl. by rewrite (list_lookup_middle (ops s) [_]).
  - unfold phase_of. cbn [ops]. rewrite lookup_app_r by lia.
    replace (S (length (ops s)) - length (ops s)) with 1 by lia. reflexivity.
Qed.

End QueueExtras.

Module LockExtras.
Import RunLock RunLockFacts.

Lemma lstep_stuck s e s' i :
  lstep s e = Some s' -> lphase_of s i = Some Stuck -> lphase_of s' i = Some Stuck.
Proof.
  unfold lphase_of. intros Hstep Hi.
  destruct (invs s !! i) as [v|] eqn:Hv; [|discriminate]. simpl in Hi. injection Hi as Hs.
  destruct e as [k|a|a p]; simpl in Hstep.
  - injection Hstep as <-. simpl. rewrite lookup_app_l by (eapply lookup_lt_Some; eauto).
    rewrite Hv; simpl; congruence.
  - destruct (invs s !! a) as [w|] eqn:Hw; [|discriminate].
    destruct (lphase_eqb (lph w) LWaiting) eqn:Hl; [|discriminate].
    destruct (lock_settled _ _ _); [|discriminate]. injection Hstep as <-.
    apply lphase_eqb_true in Hl. simpl.
    destruct (decide (a = i)) as [->|Hne].
    + congruence.
    + rewrite list_lookup_insert_ne by done. rewrite Hv; simpl; congruence.
  - destruct (invs s !! a) as [w|] eqn:Hw; [|discriminate].
    destruct (lphase_eqb (lph w) Holding) eqn:Hl; [|discriminate].
    apply lphase_eqb_true in Hl.
    destruct (decide (a = i)) as [->|Hne]; [congruence|].
    destruct (releases (inv_kind w) p) as [[|]|]; [| |discriminate];
      injection Hstep as <-; simpl; rewrite list_lookup_insert_ne by done; rewrite Hv; simpl; congruence.
Qed.

Lemma lrun_stuck s evs s' i :
  lrun s evs = Some s' -> lphase_of s i = Some Stuck -> lphase_of s' i = Some Stuck.
Proof.
  revert s. induction evs as [|e evs IH]; simpl; intros s Hrun Hi; [congruence|].
  destruct (lstep s e) as [s1|] eqn:Hs; [|discriminate].
  eapply IH; [exact Hrun|]. eapply lstep_stuck; eauto.
Qed.

(** Once an invocation is stuck (a [spawn] whose [exec] threw
    synchronously never calls [release]), every invocation issued after it
    waits forever: in every continuation it is still waiting on the lock. *)
Theorem stuck_blocks_later_invocations evs s evs' s' i j :
  lrun init evs = Some s -> lphase_of s i = Some Stuck ->
  lrun s evs' = Some s' -> i < j -> j < length (invs s') ->
  lphase_of s' j = Some LWaiting.
Proof.
  intros Hrun Hi Hrun' Hij Hj.
  pose proof (lrun_inv init (evs ++ evs') s' lock_inv_init) as Hinv.
  assert (Hall : lrun init (evs ++ evs') = Some s').
  { clear -Hrun Hrun'. revert Hrun. generalize init. induction evs as [|e evs IH]; simpl; intros s0 H.
    - congruence.
    - destruct (lstep s0 e); [|discriminate]. apply IH. exact H. }
  destruct (Hinv Hall) as (_ & _ & Hord).
  pose proof (lrun_stuck s evs' s' i Hrun' Hi) as Hs.
  unfold lphase_of in Hs |- *.
  destruct (invs s' !! i) as [vi|] eqn:Hvi; [|discriminate]. injection Hs as Hs.
  destruct (lookup_lt_is_Some_2 (invs s') j Hj) as [vj Hvj]. rewrite Hvj. simpl.
  destruct (lph vj) eqn:Hp; try reflexivity;
    (assert (lph vi = Released) by (apply (Hord i j vi vj Hij Hvi Hvj); congruence); congruence).
Qed.

Lemma stuck_blocks_later_invocations_witness :
  exists s s', lrun init [Issue SpawnCall; Acquire 0; Exit 0 ExecThrows] = Some s /\
    lphase_of s 0 = Some Stuck /\ lrun s [Issue RunCall] = Some s' /\
    lphase_of s' 1 = Some LWaiting.
Proof.
  do 2 eexists. split; [reflexivity|]. split; [reflexivity|]. split; [reflexivity|].
  refine (stuck_blocks_later_invocations [Issue SpawnCall; Acquire 0; Exit 0 ExecThrows] _
            [Issue RunCall] _ 0 1 eq_refl eq_refl eq_refl _ _); simpl; lia.
Defined.

End LockExtras.


Module BoardSyncExtras.
Import SyncPaths SyncFromBoard.

Lemma download_files_shape rootPath cp_ok files :
  snd (download_files rootPath cp_ok files) = forallb (fun e => cp_ok (entry_path e)) files /\
  (forall d, d ∈ fst (download_files rootPath cp_ok files) ->
     exists e, e ∈ files /\ d = (entry_path e, toLocalRelative (entry_path e) rootPath)) /\
  (forallb (fun e => cp_ok (entry_path e)) files = true ->
   fst (download_files rootPath cp_ok files) =
     map (fun e => (entry_path e, toLocalRelative (entry_path e) rootPath)) files).
Proof.
  induction files as [|f files IH]; simpl.
  - split; [reflexivity|]. split; [|reflexivity]. intros d Hd. apply elem_of_nil in Hd as [].
  - destruct IH as (IH1 & IH2 & IH3).
    destruct (cp_ok (entry_path f)) eqn:Hf; simpl.
    + destruct (download_files rootPath cp_ok files) as [ds ok] eqn:E. simpl in *.
      split; [exact IH1|]. split.
      * intros d Hd. apply elem_of_cons in Hd as [->|Hd].
        -- exists f. split; [left|reflexivity].
        -- destruct (IH2 d Hd) as (e & He & ->). exists e. split; [right; exact He|reflexivity].
      * intros Hall. rewrite IH3 by exact Hall. reflexivity.
    + split; [reflexivity|]. split; [|discriminate].
      intros d Hd. apply list_elem_of_singleton in Hd as ->.
      exists f. split; [left|reflexivity].
Qed.

(** [syncBaselineFromBoard] saves the manifest rebuilt from the local
    folder only after the listing and every download succeeded; otherwise
    the stored manifest is left as it was, which, for a folder it had to
    initialize, is the initial manifest written before any download.  An
    empty listing still saves the rebuilt manifest. *)
Theorem syncBaselineFromBoard_manifest {Manifest} (store : option Manifest) ws_open initialize
    (initialManifest man : Manifest) rootPath deviceStats cp_ok :
  let ok := match deviceStats with
            | Some stats => forallb (fun e => cp_ok (entry_path e))
                              (List.filter (fun e => negb (isDir e)) stats)
            | None => false
            end in
  fst (syncBaselineFromBoard store ws_open initialize initialManifest man rootPath deviceStats cp_ok) =
  match store with
  | Some m => if ws_open && ok then Some man else Some m
  | None =>
      if ws_open && initialize then (if ok then Some man else Some initialManifest) else None
  end.
Proof.
  intros ok. unfold syncBaselineFromBoard.
  destruct ws_open; simpl; [|by destruct store].
  assert (Hp : forall store1 : option Manifest,
    fst (match deviceStats with
         | None => (store1, [])
         | Some stats =>
             let (ds, ok0) := download_files rootPath cp_ok
                                (List.filter (fun e => negb (isDir e)) stats) in
             if ok0 then (Some man, ds) else (store1, ds)
         end) = if ok then Some man else store1).
  { intros store1. subst ok. destruct deviceStats as [stats|]; [|reflexivity].
    destruct (download_files_shape rootPath cp_ok (List.filter (fun e => negb (isDir e)) stats))
      as (H1 & _).
    destruct (download_files _ _ _) as [ds ok0]. simpl in H1. subst ok0.
    by destruct (forallb _ _). }
  destruct store as [m|]; [apply Hp|].
  destruct initialize; [apply Hp|reflexivity].
Qed.

(** Every download of [syncBaselineFromBoard] is a file (not a directory)
    of the board listing, written to the local path [toLocalRelative]
    gives for it; when the folder is initialized (or the user confirms
    initialization) and all downloads succeed, every file of the listing
    is downloaded, in listing order. *)
Theorem syncBaselineFromBoard_downloads {Manifest} (store : option Manifest) ws_open initialize
    (initialManifest man : Manifest) rootPath stats cp_ok :
  ws_open = true -> (store <> None \/ initialize = true) ->
  let files := List.filter (fun e => negb (isDir e)) stats in
  let ds := snd (syncBaselineFromBoard store ws_open initialize initialManifest man rootPath
                   (Some stats) cp_ok) in
  (forall d, d ∈ ds -> exists e, e ∈ stats /\ isDir e = false /\
                        d = (entry_path e, toLocalRelative (entry_path e) rootPath)) /\
  (forallb (fun e => cp_ok (entry_path e)) files = true ->
   ds = map (fun e => (entry_path e, toLocalRelative (entry_path e) rootPath)) files).
Proof.
  intros -> Hst files ds.
  assert (Hds : ds = fst (download_files rootPath cp_ok files)).
  { subst ds files. unfold syncBaselineFromBoard. simpl.
    destruct store as [m|]; [|destruct Hst as [Hs| ->]; [congruence|]]; simpl;
      destruct (download_files _ _ _) as [l [|]]; reflexivity. }
  destruct (download_files_shape rootPath cp_ok files) as (_ & H2 & H3).
  rewrite Hds. split; [|exact H3].
  intros d Hd. destruct (H2 d Hd) as (e & He & ->).
  subst files. apply list_elem_of_In, filter_In in He as [He Hd'].
  exists e. split; [by apply list_elem_of_In|]. split; [|reflexivity]. by destruct (isDir e).
Qed.

Lemma syncBaselineFromBoard_downloads_witness :
  let stats := [mkEntry "/lib" true; mkEntry "/lib/a.py" false; mkEntry "/main.py" false] in
  (true = true /\ (@None nat <> None \/ true = true)) /\
  snd (syncBaselineFromBoard (@None nat) true true 0 1 "/" (Some stats) (fun _ => true)) =
    [("/lib/a.py", "lib/a.py"); ("/main.py", "main.py")].
Proof.
  cbv zeta. split; [split; [reflexivity | right; reflexivity]|].
  pose proof (syncBaselineFromBoard_downloads (@None nat) true true 0 1 "/"
                [mkEntry "/lib" true; mkEntry "/lib/a.py" false; mkEntry "/main.py" false]
                (fun _ => true) eq_refl (or_intror eq_refl)) as H.
  cbv zeta in H. rewrite (proj2 H eq_refl). reflexivity.
Defined.

End BoardSyncExtras.
